(** * pixi-animate-extension: the publish core, embedded and verified

    Two source files carry the behaviour studied here:

    - [extension/tools/lib/objects/Shape.js]: the [Shape] constructor, which
      compiles vector paths into a flat list of draw commands and rounds the
      coordinates of every path in place;
    - [src/extension/publish/items/Container.js]: the [Container] of one
      timeline, which builds its instances from the frames' commands, keeps
      the mask intervals and renders its contents.

    JavaScript objects that are shared and mutated (the [d] arrays of the
    paths, the instances of a container) live in an explicit store and are
    named by their address. *)

From Stdlib Require Import ZArith Floats.
From stdpp Require Import functions strings pretty gmap list.

Set Warnings "-inexact-float".

(** Decide a closed proposition by evaluation. *)
Ltac by_compute := apply (bool_decide_unpack _); vm_compute; exact I.

(* ===================================================================== *)
(** * Shape.js *)
(* ===================================================================== *)

Module Shape.

(** ** JavaScript values found in path data *)

(** A value of the path data: a Number (an IEEE 754 binary64), a string (a draw
    opcode or a colour) or [undefined] (a property the data does not have). *)
Inductive value : Type :=
  | VNum (x : float)
  | VStr (s : string)
  | VUndef.

(** [v === "cp"] *)
Definition is_cp (v : value) : bool :=
  match v with VStr s => bool_decide (s = "cp") | _ => false end.

(** ** [Math.round]

    ECMAScript: the Number that is closest to [x] and is integral; when two
    integral Numbers are equally close, the one closer to +∞. NaN, the
    infinities, the zeros and the integers are returned as they are; a
    negative [x] that rounds to zero gives [-0]. *)

(** The signed mantissa of a finite float: its value is [signed s m * 2^e]. *)
Definition signed (s : bool) (m : positive) : Z :=
  if s then Z.neg m else Z.pos m.

(** For [e < 0], the integer [floor (signed s m * 2^e + 1/2)]. *)
Definition nearest_half_up (s : bool) (m : positive) (e : Z) : Z :=
  ((2 * signed s m + 2 ^ (- e)) / 2 ^ (1 - e))%Z.

(** The float nearest to an integer (the integer itself below 2^53). *)
Definition float_of_Z (n : Z) : float :=
  SF2Prim (binary_normalize prec emax n 0 false).

(** [Math.round(x)] *)
Definition Math_round (x : float) : float :=
  match Prim2SF x with
  | S754_finite s m e =>
      if (0 <=? e)%Z then x
      else
        let n := nearest_half_up s m e in
        if (n =? 0)%Z then (if s then (-0)%float else 0%float)
        else float_of_Z n
  | _ => x
  end.

(** [Math.round(command * 100) / 100] *)
Definition round2 (x : float) : float :=
  (Math_round (x * 100) / 100)%float.

(** ** Paths and the store of their [d] arrays *)

(** The address of an array object. *)
Abbreviation loc := nat (only parsing).

(** The arrays of the JavaScript heap that hold path data. *)
Abbreviation heap := (loc -> list value) (only parsing).

(** One path of the shape data. [stroke] is the truthiness of [path.stroke];
    [d] is the reference held by [path.d]. *)
Record Path : Type := mkPath {
  stroke : bool;
  color : value;
  thickness : value;
  alpha : value;
  d : loc
}.

(** The body of the callback given to [path.d.forEach]: a value whose
    [typeof] is ["number"] is [VNum]. *)
Definition roundAt (k : nat) (commands : list value) : list value :=
  match commands !! k with
  | Some (VNum command) => <[k := VNum (round2 command)]> commands
  | _ => commands
  end.

(** [path.d.forEach(function(command, k, commands) {...})]: [n] indices are
    still to be visited, the next one is [k]. *)
Fixpoint forEachRound (n k : nat) (commands : list value) : list value :=
  match n with
  | O => commands
  | S n' => forEachRound n' (S k) (roundAt k commands)
  end.

Definition roundPath (commands : list value) : list value :=
  forEachRound (length commands) 0 commands.

(** [draw.push("s", path.color, path.thickness, path.alpha)] or
    [draw.push("f", path.color, path.alpha)] *)
Definition pushStyle (draw : list value) (path : Path) : list value :=
  if stroke path
  then draw ++ [VStr "s"; color path; thickness path; alpha path]
  else draw ++ [VStr "f"; color path; alpha path].

(** One turn of the loop over [this.paths], at index [j]. *)
Definition shapeStep (j : nat) (st : heap * list value) (path : Path)
  : heap * list value :=
  let '(h, draw) := st in
  let draw := if (0 <? j)%nat then draw ++ [VStr "cp"] else draw in
  let draw := pushStyle draw path in
  let h := <[d path := roundPath (h (d path))]> h in
  (h, draw ++ h (d path)).

(** [for (let j = 0, len = this.paths.length; j < len; j++)] *)
Fixpoint shapeLoop (j : nat) (st : heap * list value) (paths : list Path)
  : heap * list value :=
  match paths with
  | [] => st
  | path :: rest => shapeLoop (S j) (shapeStep j st path) rest
  end.

(** The constructed object, without its [name]. [Object.assign(this, data)]
    copies the reference to the paths, so [s_paths] are the caller's path
    objects. *)
Record ShapeObj : Type := mkShape {
  s_paths : list Path;
  s_draw : list value
}.

(** [new Shape(data)]: the store after construction, and the shape. *)
Definition Shape (h : heap) (paths : list Path) : heap * ShapeObj :=
  let '(h', draw) := shapeLoop 0 (h, []) paths in
  (h', mkShape paths draw).

(** ** Reference definitions *)

(** What the callback of [forEach] does to one value. *)
Definition roundValue (v : value) : value :=
  match v with
  | VNum x => VNum (round2 x)
  | _ => v
  end.

(** The style opcodes of a path. *)
Definition style (path : Path) : list value :=
  if stroke path
  then [VStr "s"; color path; thickness path; alpha path]
  else [VStr "f"; color path; alpha path].

(** The segment of the draw list that belongs to one path. *)
Definition segment (h : heap) (path : Path) : list value :=
  style path ++ (roundValue <$> h (d path)).

(** Segments with one ["cp"] between neighbours. *)
Fixpoint joinCp (segs : list (list value)) : list value :=
  match segs with
  | [] => []
  | [s] => s
  | s :: rest => s ++ VStr "cp" :: joinCp rest
  end.

(** Every segment preceded by its ["cp"]: what the loop appends from index 1 on. *)
Definition prefixed (segs : list (list value)) : list value :=
  concat ((λ s, VStr "cp" :: s) <$> segs).

(** The store once the loop has run over [paths]: the array of each path,
    rounded when the loop reaches the path. *)
Fixpoint heapAfter (h : heap) (paths : list Path) : heap :=
  match paths with
  | [] => h
  | path :: rest => heapAfter (<[d path := roundValue <$> h (d path)]> h) rest
  end.

(** The segments of the draw list: each path's style, then its array as
    the loop leaves it when it reaches the path. *)
Fixpoint segmentsFrom (h : heap) (paths : list Path) : list (list value) :=
  match paths with
  | [] => []
  | path :: rest =>
      (style path ++ (roundValue <$> h (d path)))
      :: segmentsFrom (<[d path := roundValue <$> h (d path)]> h) rest
  end.

(** How many of the paths hold the array at [l]. *)
Definition writes (l : loc) (paths : list Path) : nat :=
  length (filter (λ path, d path = l) paths).

(** The number of ["cp"] values in a list. *)
Definition count_cp (l : list value) : nat :=
  length (filter (λ v, is_cp v = true) l).

(** ** The rule the specification words: halves away from zero *)

(** Round to the nearest integer, a half going away from zero: the sign of
    [x] times the half-up rounding of its magnitude. *)
Definition round_half_away (x : float) : float :=
  if (x <? 0)%float then (- Math_round (- x))%float else Math_round x.

Definition spec_round2 (x : float) : float :=
  (round_half_away (x * 100) / 100)%float.

(** ** Sample inputs *)

(** Two paths, a stroke and a fill, each with its own array. *)
Definition sampleHeap : nat → list value := λ l,
  match l with
  | 0 => [VStr "m"; VNum 1.23456; VNum (-0.125)]
  | 1 => [VStr "l"; VNum 3.14159; VNum 2]
  | _ => []
  end.

Definition sampleStroke : Path :=
  mkPath true (VStr "#ff0000") (VNum 2) (VNum 1) 0.

Definition sampleFill : Path :=
  mkPath false (VStr "#00ff00") VUndef (VNum 0.5) 1.

Definition samplePaths : list Path := [sampleStroke; sampleFill].

(** One fill whose only coordinate is a negative half of a hundredth. *)
Definition negHalfHeap : nat → list value := λ _, [VNum (-0.125)].

Definition negHalfPaths : list Path :=
  [ mkPath false (VStr "#000000") VUndef (VNum 1) 0 ].

End Shape.

(* ===================================================================== *)
(** * Container.js *)
(* ===================================================================== *)

Module Container.

(** ** Errors *)

(** The outcome of a call: a value, or a JavaScript exception that nobody
    catches ([TypeError] on a property of [undefined], or what the library
    throws). *)
Inductive result (A : Type) : Type :=
  | Ok (a : A)
  | Throw.
Arguments Ok {A} a.
Arguments Throw {A}.

#[global] Instance result_ret : MRet result := λ A a, Ok a.
#[global] Instance result_bind : MBind result := λ A B f m,
  match m with
  | Ok a => f a
  | Throw => Throw
  end.
#[global] Instance result_fmap : FMap result := λ A B f m,
  match m with
  | Ok a => Ok (f a)
  | Throw => Throw
  end.

(** A value that is [undefined] when absent: reading a property of it throws. *)
Definition defined {A : Type} (o : option A) : result A :=
  match o with
  | Some a => Ok a
  | None => Throw
  end.

(** [array.forEach(f)] for a callback that threads a state and may throw. *)
Fixpoint forEachM {A S : Type} (f : S → A → result S) (l : list A) (s : S)
  : result S :=
  match l with
  | [] => Ok s
  | a :: l' => s' ← f s a; forEachM f l' s'
  end.

(** ** The timeline data *)

(** A command of a frame. Identifiers are integers ([@param {int} id]). *)
Record Command : Type := mkCommand {
  instanceId : Z;
  assetId : Z;
  maskTill : option Z
}.

Record Frame : Type := mkFrame {
  frame : Z;
  commands : list Command
}.

(** What an instance emits while a command is added to it. *)
Inductive Event : Type :=
  | maskAdded (command : Command) (frame : Z)
  | maskRemoved (command : Command) (frame : Z).

Record Renderer : Type := mkRenderer {
  compress : bool;
  template : string → string → string → string
}.

(** ** The collaborators *)

(** Modelled from the spec: [Instance], [SoundInstance] and the library are
    not among the source files; the container uses them through the calls
    below (the instance contract and [createInstance] of the interfaces
    section). [Inst] is the mutable state of an instance object. An instance
    changes only its own state in [addToFrame], and tells the container of
    masks through the events it emits there. *)
Class Library (Inst : Type) : Type := {
  (** [library.createInstance(assetId, instanceId)]: whether the new object
      is a [SoundInstance], and its first state; [None] when the library
      throws. *)
  createInstance : Z → Z → option (bool * Inst);
  (** [instance.addToFrame(frame, command)]: the state after the call and
      the events emitted during it. *)
  addToFrame : Inst → Z → Command → Inst * list Event;
  (** [instance.renderable] *)
  renderable : Inst → bool;
  (** [instance.localName] *)
  localName : Inst → string;
  (** [instance.render(renderer, mask)] *)
  render : Inst → Renderer → option string → string
}.

(** An instance object: its class never changes, its state does. *)
Record Obj (Inst : Type) : Type := mkObj {
  sound : bool;
  state : Inst
}.
Arguments mkObj {Inst} sound state.
Arguments sound {Inst} o.
Arguments state {Inst} o.

(** The instance objects of the JavaScript heap, by address, with the next
    address [new] will use (an instance is made with [new], as in
    [p.create]: [return new ContainerInstance(this, id)]). [created] and
    [attached] record the calls of [library.createInstance] (asset, instance
    id, object made) and of [addToFrame] (object, frame, command), oldest
    first. *)
Record Store (Inst : Type) : Type := mkStore {
  heap : nat → Obj Inst;
  next : nat;
  created : list (Z * Z * nat);
  attached : list (nat * Z * Command)
}.
Arguments mkStore {Inst} heap next created attached.
Arguments heap {Inst} s.
Arguments next {Inst} s.
Arguments created {Inst} s.
Arguments attached {Inst} s.

(** An entry of [this.masks]. [startFrame] is its [frame] property. The two
    instances come from lookups in [instancesMap] and may be [undefined]. *)
Record MaskEntry : Type := mkMaskEntry {
  instance : option nat;
  mask : option nat;
  startFrame : Z;
  duration : option Z
}.

#[global] Instance MaskEntry_eq_dec : EqDecision MaskEntry.
Proof. solve_decision. Defined.

Record Container : Type := mkContainer {
  name : string;
  frames : list Frame;
  instancesMap : gmap Z nat;
  masks : list MaskEntry;
  children : list nat;
  addChildren : list string
}.

Definition set_instancesMap (c : Container) (m : gmap Z nat) : Container :=
  mkContainer (name c) (frames c) m (masks c) (children c) (addChildren c).

Definition set_masks (c : Container) (ms : list MaskEntry) : Container :=
  mkContainer (name c) (frames c) (instancesMap c) ms (children c) (addChildren c).

Definition set_children (c : Container) (ch : list nat) : Container :=
  mkContainer (name c) (frames c) (instancesMap c) (masks c) ch (addChildren c).

Definition set_addChildren (c : Container) (ns : list string) : Container :=
  mkContainer (name c) (frames c) (instancesMap c) (masks c) (children c) ns.

(** ** Mask events *)

(** [p.onMaskAdded] *)
Definition onMaskAdded (c : Container) (command : Command) (fr : Z) : Container :=
  let mask := instancesMap c !! instanceId command in
  let instance := maskTill command ≫= λ k, instancesMap c !! k in
  set_masks c (masks c ++ [mkMaskEntry instance mask fr None]).

(** [entry.duration = frame - entry.frame] *)
Definition close (entry : MaskEntry) (fr : Z) : MaskEntry :=
  mkMaskEntry (instance entry) (mask entry) (startFrame entry)
              (Some (fr - startFrame entry)%Z).

(** The callback of [this.masks.forEach] in [onMaskRemoved], at index [i]. *)
Definition closeAt (m : option nat) (fr : Z) (i : nat) (ms : list MaskEntry)
  : list MaskEntry :=
  match ms !! i with
  | Some entry => if decide (mask entry = m) then <[i := close entry fr]> ms else ms
  | None => ms
  end.

Fixpoint forEachClose (m : option nat) (fr : Z) (n i : nat) (ms : list MaskEntry)
  : list MaskEntry :=
  match n with
  | O => ms
  | S n' => forEachClose m fr n' (S i) (closeAt m fr i ms)
  end.

(** [p.onMaskRemoved] *)
Definition onMaskRemoved (c : Container) (command : Command) (fr : Z) : Container :=
  let mask := instancesMap c !! instanceId command in
  set_masks c (forEachClose mask fr (length (masks c)) 0 (masks c)).

(** The two handlers, as subscribed with [instance.on]. *)
Definition handle (c : Container) (ev : Event) : Container :=
  match ev with
  | maskAdded command fr => onMaskAdded c command fr
  | maskRemoved command fr => onMaskRemoved c command fr
  end.

Section WithLibrary.
Context {Inst : Type} `{!Library Inst}.

(** ** Building the children *)

(** The state of the walk: the heap, the container and the local array
    [children]. *)
Definition Walk : Type := Store Inst * Container * list nat.

(** [instancesMap[command.instanceId]], made by the library when absent. The
    constructor starts from an empty map, so every instance of the map was
    made here and has the two handlers subscribed. *)
Definition lookupOrCreate (σ : Store Inst) (c : Container) (command : Command)
  : result (Store Inst * Container * nat) :=
  match instancesMap c !! instanceId command with
  | Some inst => Ok (σ, c, inst)
  | None =>
      '(isSound, s0) ←
        defined (createInstance (assetId command) (instanceId command));
      let inst := next σ in
      Ok (mkStore (<[inst := mkObj isSound s0]> (heap σ)) (S inst)
                  (created σ ++ [(assetId command, instanceId command, inst)])
                  (attached σ),
          set_instancesMap c (<[instanceId command := inst]> (instancesMap c)),
          inst)
  end.

(** [instance.addToFrame(frame.frame, command)], the handlers running on the
    events it emits. *)
Definition attach (σ : Store Inst) (c : Container) (inst : nat) (fr : Z)
    (command : Command) : Store Inst * Container :=
  let o := heap σ inst in
  let '(s', events) := addToFrame (state o) fr command in
  (mkStore (<[inst := mkObj (sound o) s']> (heap σ)) (next σ) (created σ)
           (attached σ ++ [(inst, fr, command)]),
   foldl handle c events).

(** The callback of [frame.commands.forEach]. *)
Definition commandStep (fr : Z) (w : Walk) (command : Command) : result Walk :=
  let '(σ, c, children) := w in
  '(σ, c, inst) ← lookupOrCreate σ c command;
  let '(σ, c) := attach σ c inst fr command in
  if negb (sound (heap σ inst)) && bool_decide (inst ∉ children)
  then Ok (σ, c, children ++ [inst])
  else Ok (σ, c, children).

(** [this.frames.forEach(function(frame) { frame.commands.forEach(...) })] *)
Definition walkFrames (σ : Store Inst) (c : Container) : result Walk :=
  forEachM (λ w fr, forEachM (commandStep (frame fr)) (commands fr) w)
           (frames c) (σ, c, []).

(** [for (let i = children.length - 1; i >= 0; i--)], with [n = i + 1]. *)
Fixpoint removeLoop (h : nat → Obj Inst) (n : nat) (children : list nat)
  : result (list nat) :=
  match n with
  | O => Ok children
  | S i =>
      child ← defined (children !! i);
      removeLoop h i (if renderable (state (h child)) then children
                      else delete i children)
  end.

(** [p.getChildren] *)
Definition getChildren (σ : Store Inst) (c : Container)
  : result (Store Inst * Container * list nat) :=
  '(σ, c, children) ← walkFrames σ c;
  children ← removeLoop (heap σ) (length children) children;
  Ok (σ, c, reverse children).

(** The constructor: [instancesMap], [masks], [children], [addChildren]. *)
Definition newContainer (σ : Store Inst) (name : string) (frames : list Frame)
  : result (Store Inst * Container) :=
  '(σ, c, children) ← getChildren σ (mkContainer name frames ∅ [] [] []);
  Ok (σ, set_addChildren (set_children c children) []).

(** ** Rendering *)

(** [p.getMaskByInstance]: [n] entries are left, the next one is at [i]. *)
Fixpoint getMaskLoop (h : nat → Obj Inst) (ms : list MaskEntry) (inst : nat)
    (n i : nat) : result (option string) :=
  match n with
  | O => Ok None
  | S n' =>
      entry ← defined (ms !! i);
      if decide (instance entry = Some inst)
      then m ← defined (mask entry); Ok (Some (localName (state (h m))))
      else getMaskLoop h ms inst n' (S i)
  end.

Definition getMaskByInstance (h : nat → Obj Inst) (c : Container) (inst : nat)
  : result (option string) :=
  getMaskLoop h (masks c) inst (length (masks c)) 0.

(** [p.renderInstance]; the argument is [undefined] for a mask that was
    never resolved. *)
Definition renderInstance (h : nat → Obj Inst) (r : Renderer) (c : Container)
    (instance : option nat) : result (string * Container) :=
  inst ← defined instance;
  let c := set_addChildren c (addChildren c ++ [localName (state (h inst))]) in
  m ← getMaskByInstance h c inst;
  Ok (render (state (h inst)) r m, c).

(** [p.renderChildrenMasks] *)
Fixpoint renderMasksLoop (h : nat → Obj Inst) (r : Renderer) (n i : nat)
    (buffer : string) (c : Container) : result (string * Container) :=
  match n with
  | O => Ok (buffer, c)
  | S n' =>
      entry ← defined (masks c !! i);
      '(s, c) ← renderInstance h r c (mask entry);
      renderMasksLoop h r n' (S i) (buffer +:+ s) c
  end.

Definition renderChildrenMasks (h : nat → Obj Inst) (r : Renderer) (c : Container)
  : result (string * Container) :=
  renderMasksLoop h r (length (masks c)) 0 "" c.

(** [p.renderChildren] *)
Fixpoint renderChildrenLoop (h : nat → Obj Inst) (r : Renderer) (n i : nat)
    (buffer : string) (c : Container) : result (string * Container) :=
  match n with
  | O => Ok (buffer, c)
  | S n' =>
      '(s, c) ← renderInstance h r c (children c !! i);
      renderChildrenLoop h r n' (S i) (buffer +:+ s) c
  end.

Definition renderChildren (h : nat → Obj Inst) (r : Renderer) (c : Container)
  : result (string * Container) :=
  renderChildrenLoop h r (length (children c)) 0 "" c.

(** [p.renderAddChildren] *)
Definition renderAddChildren (r : Renderer) (c : Container) : string :=
  match addChildren c with
  | [] => ""
  | _ =>
      let func := if compress r then "ac" else "addChild" in
      "" +:+ ("this." +:+ func +:+ "(" +:+ String.concat ", " (addChildren c) +:+ ");")
  end.

(** [p.getContents] *)
Definition getContents (h : nat → Obj Inst) (r : Renderer) (c : Container)
  : result (string * Container) :=
  '(preBuffer, c) ← renderChildrenMasks h r c;
  '(buffer, c) ← renderChildren h r c;
  let postBuffer := renderAddChildren r c in
  Ok ((preBuffer +:+ buffer) +:+ postBuffer, c).

(** [p.render] *)
Definition renderContainer (h : nat → Obj Inst) (r : Renderer) (c : Container)
  : result (string * Container) :=
  '(contents, c) ← getContents h r c;
  Ok (template r "container" (name c) contents, c).

End WithLibrary.

Arguments Walk Inst : clear implicits.

(** ** Reference definitions

    What the statements below compare the code with: the effect of the
    handlers and of the render pass written over lists, the walk order, and
    the invariant of the walk. *)

Section Expected.
Context {Inst : Type} `{!Library Inst}.

(** What the broadcast of [onMaskRemoved] does to one entry. *)
Definition closeIf (m : option nat) (fr : Z) (entry : MaskEntry) : MaskEntry :=
  if decide (mask entry = m) then close entry fr else entry.

(** The scan of [getMaskByInstance], over the entries still to be read. *)
Fixpoint firstMask (h : nat → Obj Inst) (ms : list MaskEntry) (inst : nat)
  : result (option string) :=
  match ms with
  | [] => Ok None
  | entry :: ms' =>
      if decide (instance entry = Some inst)
      then m ← defined (mask entry); Ok (Some (localName (state (h m))))
      else firstMask h ms' inst
  end.

(** Every interval has a mask that is an instance. *)
Definition masksResolved (ms : list MaskEntry) : Prop :=
  Forall (λ entry, is_Some (mask entry)) ms.

(** [instance.localName] for the object at an address. *)
Definition localNameOf (h : nat → Obj Inst) (inst : nat) : string :=
  localName (state (h inst)).

(** The masks that are instances, in the order of [masks]. *)
Definition maskRefs (ms : list MaskEntry) : list nat := omap mask ms.

(** The local name of the mask of the first entry whose target is [inst]. *)
Definition maskNameOf (h : nat → Obj Inst) (ms : list MaskEntry) (inst : nat)
  : option string :=
  '(_, entry) ← list_find (λ e, instance e = Some inst) ms;
  m ← mask entry;
  Some (localName (state (h m))).

(** The text of one instance. *)
Definition fragment (h : nat → Obj Inst) (r : Renderer) (ms : list MaskEntry)
    (inst : nat) : string :=
  render (state (h inst)) r (maskNameOf h ms inst).

Definition concatStr (l : list string) : string := foldr String.append "" l.

(** The statement that adds the static children, for the names [ns]. *)
Definition trailing (r : Renderer) (ns : list string) : string :=
  match ns with
  | [] => ""
  | _ => "this." +:+ (if compress r then "ac" else "addChild")
         +:+ "(" +:+ String.concat ", " ns +:+ ");"
  end.

(** The walk order: frames ascending, commands in their order. *)
Definition walkOrder (fs : list Frame) : list (Z * Command) :=
  fr ← fs; (λ command, (frame fr, command)) <$> commands fr.

(** Each element once, at the place of its first occurrence. *)
Fixpoint firstSeen (l : list nat) : list nat :=
  match l with
  | [] => []
  | x :: l' => x :: filter (λ y, y ≠ x) (firstSeen l')
  end.

(** The callback of the walk, on a pair of the walk order. *)
Definition step (w : Walk Inst) (x : Z * Command) : result (Walk Inst) :=
  commandStep x.1 w x.2.

(** The instance ids of the creation calls. *)
Definition ids (l : list (Z * Z * nat)) : list Z := (λ x, x.1.2) <$> l.

(** What holds of the walk once the pairs [done] of the walk order are
    processed. *)
Record WalkInv (done : list (Z * Command)) (w : Walk Inst) : Prop := mkWalkInv {
  inv_nodup : NoDup (ids (created w.1.1));
  inv_map : ∀ id r,
    instancesMap w.1.2 !! id = Some r ↔ ∃ a, (a, id, r) ∈ created w.1.1;
  inv_seen : ∀ id,
    is_Some (instancesMap w.1.2 !! id) ↔ ∃ x, x ∈ done ∧ instanceId x.2 = id;
  inv_asset : ∀ a id r,
    (a, id, r) ∈ created w.1.1 →
    ∃ x, x ∈ done ∧ assetId x.2 = a ∧ instanceId x.2 = id;
  inv_attached :
    Forall2 (λ call x, call.1.2 = x.1 ∧ call.2 = x.2
                       ∧ instancesMap w.1.2 !! instanceId x.2 = Some call.1.1)
            (attached w.1.1) done;
  inv_fresh : ∀ id r, instancesMap w.1.2 !! id = Some r → r < next w.1.1;
  inv_cands : Forall (λ r, r < next w.1.1 ∧ sound (heap w.1.1 r) = false) w.2;
  inv_cands_nodup : NoDup w.2;
  inv_refs : NoDup ((λ x, x.2) <$> created w.1.1);
  inv_first :
    w.2 = firstSeen (filter (λ r, sound (heap w.1.1 r) = false)
                            ((λ call, call.1.1) <$> attached w.1.1))
}.

End Expected.

(** ** The container as the constructor leaves it *)

Section Built.
Context {Inst : Type} `{!Library Inst}.

(** An instance is in the map under some id. *)
Definition registered (m : gmap Z nat) (r : nat) : Prop :=
  ∃ id, m !! id = Some r.

(** The two instances of an interval, when defined, are in the map. *)
Definition entryRegistered (m : gmap Z nat) (entry : MaskEntry) : Prop :=
  (∀ r, mask entry = Some r → registered m r)
  ∧ (∀ r, instance entry = Some r → registered m r).

(** What the walk keeps besides [WalkInv], from the heap [h0] with next
    address [n], for the container named [nm] over the frames [fs]. *)
Record BuildInv (h0 : nat → Obj Inst) (n : nat) (nm : string) (fs : list Frame)
    (done : list (Z * Command)) (w : Walk Inst) : Prop := mkBuildInv {
  b_next : next w.1.1 = n + length (created w.1.1);
  b_low : ∀ a id r, (a, id, r) ∈ created w.1.1 → n ≤ r;
  b_frame : ∀ r, r < n ∨ next w.1.1 ≤ r → heap w.1.1 r = h0 r;
  b_masks : Forall (entryRegistered (instancesMap w.1.2)) (masks w.1.2);
  b_first : ∀ a id r,
    (a, id, r) ∈ created w.1.1 →
    ∃ pre x post,
      done = pre ++ x :: post
      ∧ (∀ y, y ∈ pre → instanceId y.2 ≠ id)
      ∧ instanceId x.2 = id ∧ assetId x.2 = a;
  b_class : ∀ a id r,
    (a, id, r) ∈ created w.1.1 →
    ∃ s0, createInstance a id = Some (sound (heap w.1.1 r), s0);
  b_name : name w.1.2 = nm;
  b_frames : frames w.1.2 = fs;
  b_children : children w.1.2 = [];
  b_addChildren : addChildren w.1.2 = []
}.

End Built.

(** ** The state of an instance, replayed *)

Section Replay.
Context {Inst : Type} `{!Library Inst}.

(** The commands of one id among the pairs of a walk, in their order. *)
Definition commandsOf (id : Z) (xs : list (Z * Command)) : list (Z * Command) :=
  filter (λ x, instanceId x.2 = id) xs.

(** The state of an instance once [addToFrame] was called on it with each
    pair of [xs] in turn (frame, then command), from the state [s0]. *)
Definition replay (s0 : Inst) (xs : list (Z * Command)) : Inst :=
  foldl (λ s x, (addToFrame s x.1 x.2).1) s0 xs.

(** Every object the library made is of the class the library answered, and
    its state is the library's first state after the commands of its id
    among [done], in order. *)
Definition StateInv (done : list (Z * Command)) (w : Walk Inst) : Prop :=
  ∀ a id r,
    (a, id, r) ∈ created w.1.1 →
    ∃ isSound s0,
      createInstance a id = Some (isSound, s0)
      ∧ sound (heap w.1.1 r) = isSound
      ∧ state (heap w.1.1 r) = replay s0 (commandsOf id done).

End Replay.

(** ** A sample library

    Asset 2 is a sound; asset 0 cannot be resolved. A command with
    [maskTill] turns its instance into a mask; the next command of that
    instance without [maskTill] ends the mask. *)

Record SampleInst : Type := mkSampleInst {
  s_name : string;
  s_masking : bool;
  s_renderable : bool;
  s_history : list (Z * Command)
}.

#[global] Instance sampleLibrary : Library SampleInst := {|
  createInstance a id :=
    if decide (a = 0%Z) then None
    else Some (bool_decide (a = 2%Z), mkSampleInst ("i" +:+ pretty id) false true []);
  addToFrame s fr command :=
    match maskTill command with
    | Some _ =>
        (mkSampleInst (s_name s) true false (s_history s ++ [(fr, command)]),
         [maskAdded command fr])
    | None =>
        (mkSampleInst (s_name s) false (s_renderable s) (s_history s ++ [(fr, command)]),
         if s_masking s then [maskRemoved command fr] else [])
    end;
  renderable := s_renderable;
  localName := s_name;
  render s r m :=
    match m with
    | Some m => "mask(" +:+ s_name s +:+ "," +:+ m +:+ ");"
    | None => "new(" +:+ s_name s +:+ ");"
    end
|}.

Definition sampleRenderer : Renderer :=
  mkRenderer false (λ t id contents, t +:+ ":" +:+ id +:+ "{" +:+ contents +:+ "}").

(** An empty heap of sample instances. *)
Definition sampleHeap : nat → Obj SampleInst :=
  λ _, mkObj false (mkSampleInst "" false false []).

Definition sampleStore : Store SampleInst := mkStore sampleHeap 0 [] [].

(** Frame 0 places B (id 2) and the mask A (id 1) over B; frame 1 ends the
    mask, places C (id 4) and plays a sound (id 3); frame 2 moves B. *)
Definition sampleFrames : list Frame :=
  [ mkFrame 0 [ mkCommand 2 1 None; mkCommand 1 3 (Some 2%Z) ];
    mkFrame 1 [ mkCommand 1 3 None; mkCommand 4 1 None; mkCommand 3 2 None ];
    mkFrame 2 [ mkCommand 2 1 None ] ].

(** A heap where the instance at address [i] is named after [i]. *)
Definition namedHeap : nat → Obj SampleInst :=
  λ i, mkObj false (mkSampleInst ("i" +:+ pretty i) false true []).

(** A container where the instance 20 is the target of two intervals, with
    the masks 10 and 11, and the mask 10 is used twice. *)
Definition maskedContainer : Container :=
  mkContainer "tl" [] {[ 1%Z := 10; 2%Z := 20; 3%Z := 11 ]}
    [ mkMaskEntry (Some 20) (Some 10) 0 None;
      mkMaskEntry (Some 20) (Some 11) 1 None;
      mkMaskEntry None (Some 10) 3 None ]
    [20] [].

(** The heap and the container that the constructor makes of the sample. *)
Definition sampleWorld : Store SampleInst * Container :=
  match newContainer sampleStore "tl" sampleFrames with
  | Ok w => w
  | Throw => (sampleStore, mkContainer "" [] ∅ [] [] [])
  end.

(** Two commands of the id 1, the second with an asset the library cannot
    resolve, and then a first command of the id 5 with such an asset. *)
Definition lateBrokenFrames : list Frame :=
  [ mkFrame 0 [ mkCommand 1 1 None ]; mkFrame 1 [ mkCommand 1 0 None ] ].

Definition brokenFrames : list Frame :=
  lateBrokenFrames ++ [ mkFrame 2 [ mkCommand 5 0 None ] ].

End Container.

(* ===================================================================== *)
(** * Properties of Shape.js *)
(* ===================================================================== *)

Module ShapeProps.
Import Shape.

(** ** The rounding pass *)

Lemma roundAt_middle (pre suf : list value) (v : value) :
  roundAt (length pre) (pre ++ v :: suf) = pre ++ roundValue v :: suf.
Proof.
  unfold roundAt.
  rewrite list_lookup_middle by done.
  destruct v as [x| |]; simpl; try done.
  replace (length pre) with (length pre + 0) by lia.
  by rewrite insert_app_r.
Qed.

Lemma forEachRound_app (suf pre : list value) :
  forEachRound (length suf) (length pre) (pre ++ suf)
  = pre ++ (roundValue <$> suf).
Proof.
  revert pre. induction suf as [|v suf IH]; intros pre; simpl.
  - done.
  - rewrite roundAt_middle.
    specialize (IH (pre ++ [roundValue v])).
    rewrite length_app, Nat.add_1_r, <- (assoc_L (++)) in IH.
    by rewrite <- (assoc_L (++)) in IH.
Qed.

Lemma roundPath_fmap (commands : list value) :
  roundPath commands = roundValue <$> commands.
Proof. exact (forEachRound_app commands []). Qed.

Lemma pushStyle_style (draw : list value) (path : Path) :
  pushStyle draw path = draw ++ style path.
Proof. unfold pushStyle, style. by destruct (stroke path). Qed.

(** ** The loop over the paths *)

Lemma joinCp_cons (s : list value) (rest : list (list value)) :
  joinCp (s :: rest) = s ++ prefixed rest.
Proof.
  revert s. induction rest as [|s' rest IH]; intros s.
  - simpl. by rewrite app_nil_r.
  - change (joinCp (s :: s' :: rest)) with (s ++ VStr "cp" :: joinCp (s' :: rest)).
    by rewrite IH.
Qed.

Lemma shapeLoop_later (paths : list Path) :
  ∀ j (h : nat → list value) draw,
    shapeLoop (S j) (h, draw) paths
    = (heapAfter h paths, draw ++ prefixed (segmentsFrom h paths)).
Proof.
  induction paths as [|p rest IH]; intros j h draw.
  - simpl. by rewrite app_nil_r.
  - cbn [shapeLoop shapeStep]. change (0 <? S j)%nat with true. cbv iota.
    rewrite pushStyle_style, roundPath_fmap, IH, fn_lookup_insert.
    cbn [heapAfter segmentsFrom]. f_equal.
    unfold prefixed. rewrite fmap_cons. cbn [concat].
    repeat (rewrite <- app_assoc || simpl). done.
Qed.

Lemma shapeLoop_first (paths : list Path) (h : nat → list value) :
  shapeLoop 0 (h, []) paths = (heapAfter h paths, joinCp (segmentsFrom h paths)).
Proof.
  destruct paths as [|p rest]; [done|].
  cbn [shapeLoop shapeStep]. change (0 <? 0)%nat with false. cbv iota.
  rewrite pushStyle_style, roundPath_fmap, shapeLoop_later, fn_lookup_insert.
  cbn [heapAfter segmentsFrom]. by rewrite joinCp_cons, app_nil_l.
Qed.

Lemma Shape_eq (h : nat → list value) (paths : list Path) :
  Shape h paths
  = (heapAfter h paths, mkShape paths (joinCp (segmentsFrom h paths))).
Proof. unfold Shape. by rewrite shapeLoop_first. Qed.

(** ** The store after the loop *)

Lemma heapAfter_iter (paths : list Path) :
  ∀ (h : nat → list value) (l : nat),
    heapAfter h paths l = Nat.iter (writes l paths) (fmap roundValue) (h l).
Proof.
  unfold writes. induction paths as [|p rest IH]; intros h l; [done|].
  cbn [heapAfter]. rewrite IH, filter_cons.
  destruct (decide (d p = l)) as [<-|Hne].
  - rewrite fn_lookup_insert. cbn [length]. by rewrite Nat.iter_succ_r.
  - by rewrite fn_lookup_insert_ne.
Qed.

Lemma writes_absent (l : nat) (paths : list Path) :
  l ∉ d <$> paths → writes l paths = 0.
Proof.
  unfold writes. induction paths as [|p rest IH]; intros Hl; [done|].
  rewrite fmap_cons in Hl. apply not_elem_of_cons in Hl as [Hne Hl].
  rewrite filter_cons, decide_False by done. by apply IH.
Qed.

Lemma writes_once (p : Path) (paths : list Path) :
  NoDup (d <$> paths) → p ∈ paths → writes (d p) paths = 1.
Proof.
  unfold writes. induction paths as [|q rest IH]; intros Hnd Hp.
  - by apply elem_of_nil in Hp.
  - rewrite fmap_cons in Hnd. apply list.NoDup_cons in Hnd as [Hq Hrest].
    rewrite filter_cons. apply elem_of_cons in Hp as [->|Hp].
    + rewrite decide_True by done. cbn [length]. f_equal.
      by apply writes_absent.
    + rewrite decide_False; [by apply IH|].
      intros Heq. apply Hq. rewrite Heq. by apply list_elem_of_fmap_2.
Qed.

Lemma Shape_store (h : nat → list value) (paths : list Path) (p : Path) :
  NoDup (d <$> paths) → p ∈ paths →
  (Shape h paths).1 (d p) = roundValue <$> h (d p).
Proof.
  intros Hnd Hp. rewrite Shape_eq. cbn [fst].
  by rewrite heapAfter_iter, writes_once.
Qed.

(** ** The segments *)

Lemma segmentsFrom_length (paths : list Path) (h : nat → list value) :
  length (segmentsFrom h paths) = length paths.
Proof.
  revert h. induction paths as [|p rest IH]; intros h; [done|].
  cbn [segmentsFrom length]. by rewrite IH.
Qed.

Lemma segmentsFrom_lookup (paths : list Path) :
  ∀ (h : nat → list value) (k : nat) (p : Path),
    paths !! k = Some p →
    segmentsFrom h paths !! k
    = Some (style p ++ (roundValue <$> heapAfter h (take k paths) (d p))).
Proof.
  induction paths as [|q rest IH]; intros h k p Hk; [done|].
  destruct k as [|k].
  - injection Hk as ->. done.
  - cbn [segmentsFrom take heapAfter]. cbn in Hk. by apply IH.
Qed.

Lemma segmentsFrom_distinct (paths : list Path) (h : nat → list value) :
  NoDup (d <$> paths) → segmentsFrom h paths = segment h <$> paths.
Proof.
  revert h. induction paths as [|p rest IH]; intros h Hnd; [done|].
  rewrite fmap_cons in Hnd. apply list.NoDup_cons in Hnd as [Hp Hrest].
  cbn [segmentsFrom]. rewrite fmap_cons, (IH _ Hrest). f_equal.
  apply list_fmap_ext. intros i q Hq. unfold segment.
  rewrite fn_lookup_insert_ne; [done|].
  intros Heq. apply Hp. rewrite Heq.
  apply list_elem_of_fmap_2. by eapply list_elem_of_lookup_2.
Qed.

(** ** Counting the ["cp"] opcodes *)

Lemma count_cp_app (l1 l2 : list value) :
  count_cp (l1 ++ l2) = count_cp l1 + count_cp l2.
Proof. unfold count_cp. by rewrite filter_app, length_app. Qed.

Lemma count_cp_prefixed (segs : list (list value)) :
  count_cp (prefixed segs) = length segs + sum_list (count_cp <$> segs).
Proof.
  induction segs as [|s segs IH]; [done|].
  unfold prefixed in *. rewrite fmap_cons. cbn [concat].
  change (VStr "cp" :: s) with ([VStr "cp"] ++ s).
  rewrite !count_cp_app, IH, fmap_cons. cbn [sum_list length].
  change (count_cp [VStr "cp"]) with 1. unfold id. lia.
Qed.

Lemma sum_list_zero (l : list nat) :
  Forall (λ n, n = 0) l → sum_list l = 0.
Proof. induction 1 as [|n l -> _ IH]; [done|]. simpl. lia. Qed.

(** ** [Math.round]: nearest integer, a half going up *)

Lemma nearest_half_up_bounds (s : bool) (m : positive) (e : Z) :
  (e < 0)%Z →
  ((2 * nearest_half_up s m e - 1) * 2 ^ (- e) ≤ 2 * signed s m
   ∧ 2 * signed s m < (2 * nearest_half_up s m e + 1) * 2 ^ (- e))%Z.
Proof.
  intros He. unfold nearest_half_up.
  set (a := (2 * signed s m + 2 ^ (- e))%Z).
  assert (Hp : (0 < 2 ^ (- e))%Z) by (apply Z.pow_pos_nonneg; lia).
  assert (Hb : (2 ^ (1 - e) = 2 * 2 ^ (- e))%Z).
  { replace (1 - e)%Z with (Z.succ (- e)) by lia. rewrite Z.pow_succ_r; lia. }
  rewrite Hb.
  pose proof (Z.mul_div_le a (2 * 2 ^ (- e)) ltac:(lia)) as Hlo.
  pose proof (Z.mul_succ_div_gt a (2 * 2 ^ (- e)) ltac:(lia)) as Hhi.
  unfold a in Hlo, Hhi at 1. fold a in Hlo. split; nia.
Qed.

Lemma Math_round_finite (x : float) (s : bool) (m : positive) (e : Z) :
  Prim2SF x = S754_finite s m e → (e < 0)%Z →
  Math_round x =
    if (nearest_half_up s m e =? 0)%Z
    then (if s then (-0)%float else 0%float)
    else float_of_Z (nearest_half_up s m e).
Proof.
  intros Hx He. unfold Math_round. rewrite Hx.
  destruct (Z.leb_spec 0 e); [lia | done].
Qed.

(** ** The claims on [Shape] *)

Lemma rounded_lookup (l : list value) (k : nat) :
  (roundValue <$> l) !! k =
    match l !! k with
    | Some (VNum x) => Some (VNum (Math_round (x * 100) / 100))
    | other => other
    end.
Proof.
  rewrite list_lookup_fmap. destruct (l !! k) as [[x| |]|]; done.
Qed.

(** C7, as the specification states it, fails: the coordinate [-0.125] is
    stored as [-0.12], where rounding a half away from zero gives [-0.13]. *)
Lemma shape_half_away_from_zero_fails :
  (Shape negHalfHeap negHalfPaths).1 0 = [VNum (-0.12)]
  ∧ spec_round2 (-0.125) = (-0.13)%float
  ∧ ¬ (∀ k x, negHalfHeap 0 !! k = Some (VNum x) →
         (Shape negHalfHeap negHalfPaths).1 0 !! k
         = Some (VNum (spec_round2 x))).
Proof.
  split; [by vm_compute|]. split; [by vm_compute|].
  intros H. specialize (H 0 (-0.125)%float eq_refl).
  apply (f_equal (λ o, match o with
                       | Some (VNum y) => Prim2SF y
                       | _ => S754_nan
                       end)) in H.
  vm_compute in H. discriminate H.
Qed.

(** C7 (amended): every numeric value [x] of a path's [d] is replaced by
    [Math.round(x * 100) / 100] in binary64 arithmetic, where [Math.round]
    gives the nearest integer and sends a half towards +∞ (so 1.23456 becomes
    1.23, 0.125 becomes 0.13 and -0.125 becomes -0.12); every other value stays
    as it is, at its position. An array that several paths share is rounded
    once for each of them. *)
Theorem shape_rounds_half_up (h : nat → list value) (paths : list Path) :
  (∀ l, (Shape h paths).1 l
        = Nat.iter (writes l paths) (fmap roundValue) (h l))
  ∧ (∀ (l : list value) (k : nat), (roundValue <$> l) !! k =
       match l !! k with
       | Some (VNum x) => Some (VNum (Math_round (x * 100) / 100))
       | other => other
       end)
  ∧ (NoDup (d <$> paths) →
     ∀ p k, p ∈ paths →
       (Shape h paths).1 (d p) !! k =
         match h (d p) !! k with
         | Some (VNum x) => Some (VNum (Math_round (x * 100) / 100))
         | other => other
         end)
  ∧ (∀ x s m e, Prim2SF x = S754_finite s m e →
       ((0 ≤ e)%Z → Math_round x = x)
       ∧ ((e < 0)%Z →
          ∃ n : Z,
            ((2 * n - 1) * 2 ^ (- e) ≤ 2 * signed s m
             ∧ 2 * signed s m < (2 * n + 1) * 2 ^ (- e))%Z
            ∧ Math_round x =
                if (n =? 0)%Z then (if s then (-0)%float else 0%float)
                else float_of_Z n))
  ∧ round2 1.23456 = 1.23%float
  ∧ round2 0.125 = 0.13%float
  ∧ round2 (-0.125) = (-0.12)%float.
Proof.
  split; [|split; [|split; [|split]]].
  - intros l. rewrite Shape_eq. apply heapAfter_iter.
  - apply rounded_lookup.
  - intros Hnd p k Hp. rewrite (Shape_store h paths p Hnd Hp).
    apply rounded_lookup.
  - intros x s m e Hx. split.
    + intros He. unfold Math_round. rewrite Hx.
      by destruct (Z.leb_spec 0 e); [|lia].
    + intros He. exists (nearest_half_up s m e). split.
      * by apply nearest_half_up_bounds.
      * by apply Math_round_finite.
  - by vm_compute.
Qed.

Lemma shape_rounds_half_up_witness :
  NoDup (d <$> samplePaths)
  ∧ (Shape sampleHeap samplePaths).1 0 !! 2 = Some (VNum (-0.12)).
Proof.
  assert (Hnd : NoDup (d <$> samplePaths)) by by_compute.
  split; [exact Hnd|].
  destruct (shape_rounds_half_up sampleHeap samplePaths) as (_ & _ & Hr & _).
  refine (eq_trans (Hr Hnd sampleStroke 2 _) _).
  - left.
  - vm_compute. reflexivity.
Defined.

(** C9: a shape built from N >= 1 paths has a draw list made of the N path
    segments with one ["cp"] between neighbours and none in front: N - 1
    separators. A segment is ["s"], colour, thickness, alpha for a stroke
    and ["f"], colour, alpha for a fill, followed by the values of the
    path's [d], rounded, in order. The draw list holds no other ["cp"] than
    these unless the data of a path has one. *)
Theorem shape_draw_interleaves_cp
    (h : nat → list value) (paths : list Path) (n : nat) :
  length paths = S n →
  s_draw (Shape h paths).2 = joinCp (segmentsFrom h paths)
  ∧ length (segmentsFrom h paths) = S n
  ∧ (∀ k p, paths !! k = Some p →
       segmentsFrom h paths !! k
       = Some ((if stroke p
                then [VStr "s"; color p; thickness p; alpha p]
                else [VStr "f"; color p; alpha p])
               ++ (roundValue <$> heapAfter h (take k paths) (d p))))
  ∧ (NoDup (d <$> paths) →
     segmentsFrom h paths
     = (λ p, (if stroke p
              then [VStr "s"; color p; thickness p; alpha p]
              else [VStr "f"; color p; alpha p])
             ++ (roundValue <$> h (d p))) <$> paths)
  ∧ count_cp (s_draw (Shape h paths).2)
    = n + sum_list (count_cp <$> segmentsFrom h paths)
  ∧ (Forall (λ s, count_cp s = 0) (segmentsFrom h paths) →
     count_cp (s_draw (Shape h paths).2) = n).
Proof.
  intros Hlen. rewrite Shape_eq. cbn [snd s_draw].
  assert (Hcount : count_cp (joinCp (segmentsFrom h paths))
                   = n + sum_list (count_cp <$> segmentsFrom h paths)).
  { pose proof (segmentsFrom_length paths h) as Hl. rewrite Hlen in Hl.
    destruct (segmentsFrom h paths) as [|s segs]; [done|].
    rewrite joinCp_cons, count_cp_app, count_cp_prefixed, fmap_cons.
    injection Hl as ->. cbn [sum_list]. unfold id. lia. }
  split; [done|]. split; [by rewrite segmentsFrom_length|].
  split; [|split; [|split; [exact Hcount|]]].
  - intros k p Hk. rewrite (segmentsFrom_lookup paths h k p Hk).
    unfold style. by destruct (stroke p).
  - intros Hnd. rewrite (segmentsFrom_distinct paths h Hnd).
    apply list_fmap_ext. intros i p _. unfold segment, style.
    by destruct (stroke p).
  - intros Hno. rewrite Hcount, sum_list_zero; [lia|].
    by apply Forall_fmap.
Qed.

Lemma shape_draw_interleaves_cp_witness :
  length samplePaths = 2
  ∧ s_draw (Shape sampleHeap samplePaths).2
    = [VStr "s"; VStr "#ff0000"; VNum 2; VNum 1;
       VStr "m"; VNum 1.23; VNum (-0.12);
       VStr "cp";
       VStr "f"; VStr "#00ff00"; VNum 0.5;
       VStr "l"; VNum 3.14; VNum 2]
  ∧ count_cp (s_draw (Shape sampleHeap samplePaths).2) = 1.
Proof.
  split; [reflexivity|].
  destruct (shape_draw_interleaves_cp sampleHeap samplePaths 1 eq_refl)
    as (Hd & _ & _ & _ & _ & Hn).
  split.
  - rewrite Hd. by vm_compute.
  - apply Hn. by_compute.
Defined.

(** C10: constructing a shape writes into the caller's data. The shape keeps
    the caller's path objects; after the construction the [d] array of each
    of them holds the rounded value in the place of every number and every
    other entry as before (rounded once more for each further path that
    shares the array); no other array is written. An array with a number
    that rounding changes is therefore no longer what it was. *)
Theorem shape_rounds_input_in_place (h : nat → list value) (paths : list Path) :
  s_paths (Shape h paths).2 = paths
  ∧ (∀ l, (Shape h paths).1 l
          = Nat.iter (writes l paths) (fmap roundValue) (h l))
  ∧ (∀ v, roundValue v = match v with VNum x => VNum (round2 x) | _ => v end)
  ∧ (∀ p, p ∈ paths → 1 ≤ writes (d p) paths)
  ∧ (∀ l, l ∉ d <$> paths → (Shape h paths).1 l = h l)
  ∧ (NoDup (d <$> paths) →
     (∀ p, p ∈ paths → (Shape h paths).1 (d p) = roundValue <$> h (d p))
     ∧ (∀ p k x, p ∈ paths → h (d p) !! k = Some (VNum x) → round2 x ≠ x →
          (Shape h paths).1 (d p) ≠ h (d p))).
Proof.
  split; [by rewrite Shape_eq|].
  split; [intros l; rewrite Shape_eq; apply heapAfter_iter|].
  split; [done|]. split; [|split; [|split]].
  - intros p Hp. unfold writes.
    destruct (filter _ paths) as [|q qs] eqn:Hf; [|cbn; lia].
    exfalso. by eapply (filter_nil_not_elem_of (λ q, d q = d p) paths p).
  - intros l Hl. rewrite Shape_eq. cbn [fst].
    by rewrite heapAfter_iter, writes_absent.
  - intros p Hp. by apply Shape_store.
  - intros p k x Hp Hk Hx Heq.
    rewrite (Shape_store h paths p H Hp) in Heq.
    apply (f_equal (λ l, l !! k)) in Heq.
    rewrite list_lookup_fmap, Hk in Heq. simpl in Heq. congruence.
Qed.

Lemma shape_rounds_input_in_place_witness :
  sampleHeap 0 = [VStr "m"; VNum 1.23456; VNum (-0.125)]
  ∧ (Shape sampleHeap samplePaths).1 0 = [VStr "m"; VNum 1.23; VNum (-0.12)]
  ∧ (Shape sampleHeap samplePaths).1 0 ≠ sampleHeap 0.
Proof.
  assert (Hnd : NoDup (d <$> samplePaths)) by by_compute.
  destruct (shape_rounds_input_in_place sampleHeap samplePaths)
    as (_ & _ & _ & _ & _ & Hr).
  destruct (Hr Hnd) as [Hst Hne].
  split; [reflexivity|]. split.
  - refine (eq_trans (Hst sampleStroke _) _); [left | by vm_compute].
  - refine (Hne sampleStroke 1 1.23456%float _ eq_refl _); [left|].
    intros Heq. apply (f_equal Prim2SF) in Heq. vm_compute in Heq.
    discriminate Heq.
Defined.

End ShapeProps.

(* ===================================================================== *)
(** * Properties of Container.js *)
(* ===================================================================== *)

Module ContainerProps.
Import Container.

(** ** The error monad *)

Lemma bind_Ok {A B : Type} (m : result A) (f : A → result B) (b : B) :
  m ≫= f = Ok b → ∃ a, m = Ok a ∧ f a = Ok b.
Proof. destruct m as [a|]; [eauto | discriminate]. Qed.

(** ** [onMaskRemoved] *)

Lemma closeAt_middle (m : option nat) (fr : Z) (pre suf : list MaskEntry)
    (entry : MaskEntry) :
  closeAt m fr (length pre) (pre ++ entry :: suf)
  = pre ++ closeIf m fr entry :: suf.
Proof.
  unfold closeAt, closeIf. rewrite list_lookup_middle by done.
  destruct (decide (mask entry = m)); [|done].
  replace (length pre) with (length pre + 0) by lia.
  by rewrite insert_app_r.
Qed.

Lemma forEachClose_app (m : option nat) (fr : Z) (suf pre : list MaskEntry) :
  forEachClose m fr (length suf) (length pre) (pre ++ suf)
  = pre ++ (closeIf m fr <$> suf).
Proof.
  revert pre. induction suf as [|entry suf IH]; intros pre; [done|].
  cbn [length forEachClose]. rewrite closeAt_middle.
  specialize (IH (pre ++ [closeIf m fr entry])).
  rewrite length_app, Nat.add_1_r, <- (assoc_L (++)) in IH.
  by rewrite <- (assoc_L (++)) in IH.
Qed.

Lemma onMaskRemoved_masks (c : Container) (command : Command) (fr : Z) :
  masks (onMaskRemoved c command fr)
  = closeIf (instancesMap c !! instanceId command) fr <$> masks c.
Proof. exact (forEachClose_app _ fr (masks c) []). Qed.

(** C2: [onMaskRemoved] closes every interval whose mask is the instance at
    [command.instanceId], setting its duration to the frame minus the start
    of the interval, and leaves every other interval as it is; when no
    interval has that mask, the container is what it was. *)
Theorem onMaskRemoved_broadcast (c : Container) (command : Command) (fr : Z) :
  let m := instancesMap c !! instanceId command in
  let c' := onMaskRemoved c command fr in
  length (masks c') = length (masks c)
  ∧ (∀ i entry, masks c !! i = Some entry →
       masks c' !! i =
         Some (if decide (mask entry = m)
               then mkMaskEntry (instance entry) (mask entry) (startFrame entry)
                                (Some (fr - startFrame entry)%Z)
               else entry))
  ∧ ((∀ entry, entry ∈ masks c → mask entry ≠ m) → c' = c)
  ∧ instancesMap c' = instancesMap c
  ∧ children c' = children c
  ∧ addChildren c' = addChildren c
  ∧ frames c' = frames c.
Proof.
  intros m c'.
  assert (Hm : masks c' = closeIf m fr <$> masks c)
    by apply onMaskRemoved_masks.
  split; [by rewrite Hm, length_fmap|].
  split; [|split; [|done]].
  - intros i entry Hi. by rewrite Hm, list_lookup_fmap, Hi.
  - intros Hno.
    assert (Hsame : masks c' = masks c).
    { rewrite Hm. rewrite <- (list_fmap_id (masks c)) at 2.
      apply list_fmap_ext. intros i entry Hi. unfold closeIf.
      destruct (decide (mask entry = m)) as [He|]; [|done].
      exfalso. eapply Hno; [|exact He]. by eapply list_elem_of_lookup_2. }
    destruct c. unfold c', onMaskRemoved, set_masks in *. simpl in *.
    by rewrite Hsame.
Qed.

Lemma onMaskRemoved_broadcast_witness :
  masks (onMaskRemoved maskedContainer (mkCommand 1 0 None) 5)
  = [ mkMaskEntry (Some 20) (Some 10) 0 (Some 5%Z);
      mkMaskEntry (Some 20) (Some 11) 1 None;
      mkMaskEntry None (Some 10) 3 (Some 2%Z) ]
  ∧ onMaskRemoved maskedContainer (mkCommand 7 0 None) 5 = maskedContainer.
Proof.
  destruct (onMaskRemoved_broadcast maskedContainer (mkCommand 1 0 None) 5)
    as (_ & Hall & _).
  destruct (onMaskRemoved_broadcast maskedContainer (mkCommand 7 0 None) 5)
    as (_ & _ & Hnone & _).
  split.
  - apply list_eq. intros [|[|[|i]]].
    + by rewrite (Hall 0 _ eq_refl).
    + by rewrite (Hall 1 _ eq_refl).
    + by rewrite (Hall 2 _ eq_refl).
    + by vm_compute.
  - apply Hnone. intros entry Hin. vm_compute in Hin.
    repeat (apply elem_of_cons in Hin as [->|Hin]; [by vm_compute|]).
    by apply elem_of_nil in Hin.
Defined.

(** ** [getMaskByInstance] *)

Section Render.
Context {Inst : Type} `{!Library Inst}.
Implicit Types (h : nat → Obj Inst) (c : Container) (r : Renderer).

Lemma getMaskLoop_app h (inst : nat) (suf pre : list MaskEntry) :
  getMaskLoop h (pre ++ suf) inst (length suf) (length pre)
  = firstMask h suf inst.
Proof.
  revert pre. induction suf as [|entry suf IH]; intros pre; [done|].
  cbn [length getMaskLoop firstMask].
  rewrite list_lookup_middle by done. cbn.
  destruct (decide (instance entry = Some inst)); [done|].
  specialize (IH (pre ++ [entry])).
  rewrite length_app, Nat.add_1_r, <- (assoc_L (++)) in IH. exact IH.
Qed.

Lemma getMaskByInstance_firstMask h c (inst : nat) :
  getMaskByInstance h c inst = firstMask h (masks c) inst.
Proof. exact (getMaskLoop_app h inst (masks c) []). Qed.

Lemma firstMask_none h (ms : list MaskEntry) (inst : nat) :
  (∀ entry, entry ∈ ms → instance entry ≠ Some inst) →
  firstMask h ms inst = Ok None.
Proof.
  induction ms as [|entry ms IH]; intros Hno; [done|]. simpl.
  destruct (decide (instance entry = Some inst)) as [He|_].
  - exfalso. eapply Hno; [left | exact He].
  - apply IH. intros e He. apply Hno. by right.
Qed.

Lemma firstMask_at h (ms : list MaskEntry) (inst i : nat) (entry : MaskEntry) :
  ms !! i = Some entry → instance entry = Some inst →
  (∀ j e, j < i → ms !! j = Some e → instance e ≠ Some inst) →
  firstMask h ms inst
  = (m ← defined (mask entry); Ok (Some (localName (state (h m))))).
Proof.
  revert i. induction ms as [|e0 ms IH]; intros i Hi He Hbefore; [done|].
  destruct i as [|i]; simpl in *.
  - injection Hi as ->. by rewrite decide_True.
  - rewrite decide_False by (apply (Hbefore 0 e0); [lia | done]).
    apply (IH i Hi He). intros j e Hj Hje.
    apply (Hbefore (S j) e); [lia | done].
Qed.

(** C8: [getMaskByInstance] scans [masks] from the start. It answers [null]
    when no interval has the instance as its target; otherwise it answers
    with the first such interval alone: the local name of its mask (the
    read of [localName] throws when that mask is [undefined]). Later
    intervals of the same instance are never used. *)
Theorem getMaskByInstance_first_match h c (inst : nat) :
  ((∀ entry, entry ∈ masks c → instance entry ≠ Some inst) →
     getMaskByInstance h c inst = Ok None)
  ∧ (∀ i entry,
       masks c !! i = Some entry → instance entry = Some inst →
       (∀ j e, j < i → masks c !! j = Some e → instance e ≠ Some inst) →
       (∀ m, mask entry = Some m →
          getMaskByInstance h c inst = Ok (Some (localName (state (h m)))))
       ∧ (mask entry = None → getMaskByInstance h c inst = Throw)).
Proof.
  split.
  - intros Hno. rewrite getMaskByInstance_firstMask. by apply firstMask_none.
  - intros i entry Hi He Hbefore.
    rewrite getMaskByInstance_firstMask, (firstMask_at h _ inst i entry Hi He Hbefore).
    split; [intros m -> | intros ->]; done.
Qed.

End Render.

Lemma getMaskByInstance_first_match_witness :
  getMaskByInstance namedHeap maskedContainer 20 = Ok (Some "i10")
  ∧ getMaskByInstance namedHeap maskedContainer 10 = Ok None.
Proof.
  destruct (getMaskByInstance_first_match namedHeap maskedContainer 20)
    as [_ Hfirst].
  destruct (getMaskByInstance_first_match namedHeap maskedContainer 10)
    as [Hnone _].
  split.
  - destruct (Hfirst 0 (mkMaskEntry (Some 20) (Some 10) 0 None) eq_refl eq_refl)
      as [Hname _]; [intros j e Hj; lia|].
    by rewrite (Hname 10 eq_refl).
  - apply Hnone. intros entry Hin. vm_compute in Hin.
    repeat (apply elem_of_cons in Hin as [->|Hin]; [by vm_compute|]).
    by apply elem_of_nil in Hin.
Defined.

(** ** Strings *)

Lemma append_cons (x : Ascii.ascii) (a b : string) :
  String x a +:+ b = String x (a +:+ b).
Proof. reflexivity. Qed.

Lemma append_empty_l (a : string) : "" +:+ a = a.
Proof. reflexivity. Qed.

Lemma append_assoc (a b c : string) : (a +:+ b) +:+ c = a +:+ (b +:+ c).
Proof.
  induction a as [|x a IH]; [done|]. by rewrite !append_cons, IH.
Qed.

Lemma append_empty_r (a : string) : a +:+ "" = a.
Proof.
  induction a as [|x a IH]; [done|]. by rewrite append_cons, IH.
Qed.

(** ** The render pass *)

Section Contents.
Context {Inst : Type} `{!Library Inst}.
Implicit Types (h : nat → Obj Inst) (c : Container) (r : Renderer).

Lemma firstMask_resolved h (ms : list MaskEntry) (inst : nat) :
  masksResolved ms → firstMask h ms inst = Ok (maskNameOf h ms inst).
Proof.
  unfold maskNameOf. induction 1 as [|entry ms [m Hm] _ IH]; [done|].
  cbn [firstMask list_find].
  destruct (decide (instance entry = Some inst)); cbn.
  - by rewrite Hm.
  - rewrite IH. by destruct (list_find _ ms) as [[? ?]|].
Qed.

Lemma renderInstance_resolved h r c (inst : nat) :
  masksResolved (masks c) →
  renderInstance h r c (Some inst)
  = Ok (fragment h r (masks c) inst,
        set_addChildren c (addChildren c ++ [localNameOf h inst])).
Proof.
  intros Hres. unfold renderInstance. cbn [defined mbind result_bind].
  rewrite getMaskByInstance_firstMask. cbn [masks set_addChildren].
  by rewrite firstMask_resolved.
Qed.

Lemma renderInstance_Ok h r c (o : option nat) (s : string) (c' : Container) :
  renderInstance h r c o = Ok (s, c') →
  is_Some o ∧ masks c' = masks c ∧ children c' = children c.
Proof.
  unfold renderInstance. destruct o as [inst|]; [|discriminate].
  cbn [defined mbind result_bind].
  destruct (getMaskByInstance h _ inst); [|discriminate].
  intros [= <- <-]. eauto.
Qed.

Lemma renderMasksLoop_resolved h r (suf pre : list MaskEntry) :
  ∀ (buffer : string) c,
    masks c = pre ++ suf → masksResolved (masks c) →
    renderMasksLoop h r (length suf) (length pre) buffer c
    = Ok (buffer +:+ concatStr (fragment h r (masks c) <$> maskRefs suf),
          set_addChildren c (addChildren c ++ (localNameOf h <$> maskRefs suf))).
Proof.
  revert pre. induction suf as [|entry suf IH]; intros pre buffer c Hms Hres.
  - cbn. rewrite append_empty_r, app_nil_r. by destruct c.
  - cbn [length renderMasksLoop].
    assert (Hlk : masks c !! length pre = Some entry)
      by (rewrite Hms; by apply list_lookup_middle).
    rewrite Hlk. cbn [defined mbind result_bind].
    assert (is_Some (mask entry)) as [m Hm].
    { eapply (proj1 (Forall_forall _ _) Hres). rewrite Hms. set_solver. }
    rewrite Hm, renderInstance_resolved by done. cbn [mbind result_bind].
    specialize (IH (pre ++ [entry])). rewrite length_app, Nat.add_1_r in IH.
    rewrite IH.
    + cbn [masks set_addChildren addChildren]. unfold maskRefs.
      cbn [omap list_omap]. rewrite Hm. cbn [fmap list_fmap concatStr foldr].
      rewrite append_assoc, <- (assoc_L (++)). done.
    + cbn [masks set_addChildren]. by rewrite Hms, <- (assoc_L (++)).
    + done.
Qed.

Lemma renderMasksLoop_Ok h r (suf pre : list MaskEntry) :
  ∀ (buffer b : string) c c',
    masks c = pre ++ suf →
    renderMasksLoop h r (length suf) (length pre) buffer c = Ok (b, c') →
    masksResolved suf.
Proof.
  revert pre. induction suf as [|entry suf IH]; intros pre buffer b c c' Hms Hok.
  - constructor.
  - cbn [length renderMasksLoop] in Hok.
    rewrite Hms, list_lookup_middle in Hok by done.
    cbn [defined mbind result_bind] in Hok.
    destruct (renderInstance h r c (mask entry)) as [[s c1]|] eqn:Hri;
      [|discriminate].
    apply renderInstance_Ok in Hri as (Hsome & Hm1 & _).
    cbn [mbind result_bind] in Hok.
    constructor; [done|].
    apply (IH (pre ++ [entry]) (buffer +:+ s) b c1 c').
    + by rewrite Hm1, Hms, <- (assoc_L (++)).
    + by rewrite length_app, Nat.add_1_r.
Qed.

Lemma renderChildrenLoop_resolved h r (suf pre : list nat) :
  ∀ (buffer : string) c,
    children c = pre ++ suf → masksResolved (masks c) →
    renderChildrenLoop h r (length suf) (length pre) buffer c
    = Ok (buffer +:+ concatStr (fragment h r (masks c) <$> suf),
          set_addChildren c (addChildren c ++ (localNameOf h <$> suf))).
Proof.
  revert pre. induction suf as [|inst suf IH]; intros pre buffer c Hch Hres.
  - cbn. rewrite append_empty_r, app_nil_r. by destruct c.
  - cbn [length renderChildrenLoop].
    assert (Hlk : children c !! length pre = Some inst)
      by (rewrite Hch; by apply list_lookup_middle).
    rewrite Hlk, renderInstance_resolved by done. cbn [mbind result_bind].
    specialize (IH (pre ++ [inst])). rewrite length_app, Nat.add_1_r in IH.
    rewrite IH.
    + cbn [masks set_addChildren addChildren fmap list_fmap concatStr foldr].
      rewrite append_assoc, <- (assoc_L (++)). done.
    + cbn [children set_addChildren]. by rewrite Hch, <- (assoc_L (++)).
    + done.
Qed.

Lemma maskRefs_length (ms : list MaskEntry) :
  masksResolved ms → length (maskRefs ms) = length ms.
Proof.
  unfold maskRefs. induction 1 as [|entry ms [m Hm] _ IH]; [done|].
  cbn. rewrite Hm. cbn. by rewrite IH.
Qed.

Lemma renderAddChildren_trailing r c :
  renderAddChildren r c = trailing r (addChildren c).
Proof. unfold renderAddChildren, trailing. by destruct (addChildren c). Qed.

(** The whole pass when every mask is an instance. *)
Lemma getContents_resolved h r c :
  masksResolved (masks c) →
  let names := addChildren c ++ (localNameOf h <$> maskRefs (masks c))
                 ++ (localNameOf h <$> children c) in
  getContents h r c
  = Ok ((concatStr (fragment h r (masks c) <$> maskRefs (masks c))
         +:+ concatStr (fragment h r (masks c) <$> children c))
        +:+ trailing r names,
        set_addChildren c names).
Proof.
  intros Hres names. unfold getContents, renderChildrenMasks.
  pose proof (renderMasksLoop_resolved h r (masks c) [] "" c eq_refl Hres) as H1.
  cbn [length] in H1. rewrite H1. clear H1.
  cbn [mbind result_bind]. unfold renderChildren.
  set (c1 := set_addChildren c _).
  pose proof (renderChildrenLoop_resolved h r (children c1) [] "" c1 eq_refl Hres)
    as H2.
  cbn [length] in H2. rewrite H2. clear H2.
  cbn [mbind result_bind]. rewrite renderAddChildren_trailing.
  unfold c1. cbn [masks children addChildren set_addChildren].
  rewrite !append_empty_l.
  unfold names. by rewrite <- (assoc_L (++)).
Qed.

Lemma getContents_Ok h r c (b : string) (c' : Container) :
  getContents h r c = Ok (b, c') → masksResolved (masks c).
Proof.
  unfold getContents, renderChildrenMasks. intros Hok.
  apply bind_Ok in Hok as ([pre c1] & Hpre & _).
  by apply (renderMasksLoop_Ok h r (masks c) [] "" pre c c1).
Qed.

Lemma maskRefs_masks (ms : list MaskEntry) :
  masksResolved ms → mask <$> ms = Some <$> maskRefs ms.
Proof.
  unfold maskRefs. induction 1 as [|entry ms [m Hm] _ IH]; [done|].
  cbn. rewrite Hm. cbn. by rewrite IH.
Qed.

(** C1: starting from an empty [addChildren], a [getContents] pass that
    returns has pushed one local name per mask interval, then one per child:
    the names of the masks come first, and the length is
    [masks.length + children.length]. The pass returns whenever every
    interval has a mask that is an instance. *)
Theorem getContents_addChildren h r c :
  addChildren c = [] →
  (masksResolved (masks c) → ∃ b c', getContents h r c = Ok (b, c'))
  ∧ (∀ b c', getContents h r c = Ok (b, c') →
       mask <$> masks c = Some <$> maskRefs (masks c)
       ∧ addChildren c'
         = (localNameOf h <$> maskRefs (masks c)) ++ (localNameOf h <$> children c)
       ∧ length (addChildren c') = length (masks c) + length (children c)
       ∧ take (length (masks c)) (addChildren c')
         = localNameOf h <$> maskRefs (masks c)
       ∧ masks c' = masks c
       ∧ children c' = children c).
Proof.
  intros Hempty. split.
  - intros Hres. rewrite (getContents_resolved h r c Hres). eauto.
  - intros b c' Hok. pose proof (getContents_Ok h r c b c' Hok) as Hres.
    rewrite (getContents_resolved h r c Hres), Hempty in Hok.
    injection Hok as _ <-. cbn [addChildren masks children set_addChildren app].
    split; [by apply maskRefs_masks|]. split; [done|].
    split; [|split; [|done]].
    + by rewrite length_app, !length_fmap, maskRefs_length.
    + rewrite take_app_length'; [done|].
      by rewrite length_fmap, maskRefs_length.
Qed.

(** C6: when every interval has a mask that is an instance, [getContents]
    returns the texts of the masks in the order of [masks], then the texts
    of the children in the order of [children], then the statement that adds
    the static children: [this.ac(...)] under [compress], [this.addChild(...)]
    otherwise, over all the names of [addChildren] joined by [", "], and
    nothing when there is no name. The text of an instance is its own
    [render] given the result of [getMaskByInstance]. When some interval has
    an [undefined] mask, rendering it throws. *)
Theorem getContents_order h r c :
  let names := addChildren c ++ (localNameOf h <$> maskRefs (masks c))
                 ++ (localNameOf h <$> children c) in
  (masksResolved (masks c) →
   getContents h r c
   = Ok ((concatStr (fragment h r (masks c) <$> maskRefs (masks c))
          +:+ concatStr (fragment h r (masks c) <$> children c))
         +:+ trailing r names,
         set_addChildren c names)
   ∧ mask <$> masks c = Some <$> maskRefs (masks c)
   ∧ (∀ inst, ∃ m, getMaskByInstance h c inst = Ok m
                   ∧ fragment h r (masks c) inst = render (state (h inst)) r m))
  ∧ (¬ masksResolved (masks c) → getContents h r c = Throw)
  ∧ trailing r [] = ""
  ∧ (names ≠ [] →
     trailing r names
     = "this." +:+ (if compress r then "ac" else "addChild")
       +:+ "(" +:+ String.concat ", " names +:+ ");").
Proof.
  intros names. split; [|split; [|split; [done|]]].
  - intros Hres. split; [by apply getContents_resolved|].
    split; [by apply maskRefs_masks|].
    intros inst. exists (maskNameOf h (masks c) inst). split; [|done].
    by rewrite getMaskByInstance_firstMask, firstMask_resolved.
  - intros Hnot. destruct (getContents h r c) as [[b c']|] eqn:Hok; [|done].
    exfalso. apply Hnot. by eapply getContents_Ok.
  - intros Hne. unfold trailing. by destruct names.
Qed.

End Contents.

Lemma sampleWorld_resolved : masksResolved (masks sampleWorld.2).
Proof. vm_compute. repeat constructor. by eexists. Qed.

Lemma getContents_addChildren_witness :
  addChildren sampleWorld.2 = []
  ∧ ∃ b c', getContents (heap sampleWorld.1) sampleRenderer sampleWorld.2
            = Ok (b, c')
            ∧ addChildren c' = ["i1"; "i4"; "i2"].
Proof.
  split; [by vm_compute|].
  destruct (getContents_addChildren (heap sampleWorld.1) sampleRenderer
              sampleWorld.2 ltac:(by vm_compute)) as [Hret Hnames].
  destruct (Hret sampleWorld_resolved) as (b & c' & Hok).
  exists b, c'. split; [exact Hok|].
  destruct (Hnames b c' Hok) as (_ & -> & _). by vm_compute.
Defined.

Lemma getContents_order_witness :
  masksResolved (masks sampleWorld.2)
  ∧ fst <$> getContents (heap sampleWorld.1) sampleRenderer sampleWorld.2
    = Ok "new(i1);new(i4);mask(i2,i1);this.addChild(i1, i4, i2);".
Proof.
  split; [exact sampleWorld_resolved|].
  destruct (getContents_order (heap sampleWorld.1) sampleRenderer sampleWorld.2)
    as [Hres _].
  destruct (Hres sampleWorld_resolved) as [-> _].
  by vm_compute.
Defined.

(** ** [forEach] *)

Lemma forEachM_app {A S : Type} (f : S → A → result S) (l1 l2 : list A) (s : S) :
  forEachM f (l1 ++ l2) s = forEachM f l1 s ≫= forEachM f l2.
Proof.
  revert s. induction l1 as [|a l1 IH]; intros s; [done|].
  cbn [app forEachM]. destruct (f s a) as [s'|]; [|done].
  cbn [mbind result_bind]. apply IH.
Qed.

Lemma forEachM_fmap {A B S : Type} (g : A → B) (f : S → B → result S)
    (l : list A) (s : S) :
  forEachM f (g <$> l) s = forEachM (λ s a, f s (g a)) l s.
Proof.
  revert s. induction l as [|a l IH]; intros s; [done|].
  cbn [fmap list_fmap forEachM]. destruct (f s (g a)) as [s'|]; [|done].
  cbn [mbind result_bind]. apply IH.
Qed.

Lemma forEachM_invariant {A S : Type} (I : list A → S → Prop)
    (f : S → A → result S) :
  (∀ done s a s', I done s → f s a = Ok s' → I (done ++ [a]) s') →
  ∀ l done s s', I done s → forEachM f l s = Ok s' → I (done ++ l) s'.
Proof.
  intros Hstep. induction l as [|a l IH]; intros done s s' HI Hrun.
  - injection Hrun as <-. by rewrite app_nil_r.
  - cbn [forEachM] in Hrun. apply bind_Ok in Hrun as (s1 & Ha & Hrun).
    rewrite (cons_middle a), (assoc_L (++)). eapply IH; [|exact Hrun].
    by eapply Hstep.
Qed.

Lemma forEachM_returns {A S : Type} (f : S → A → result S) (l : list A) :
  (∀ s a, a ∈ l → ∃ s', f s a = Ok s') →
  ∀ s, ∃ s', forEachM f l s = Ok s'.
Proof.
  induction l as [|a l IH]; intros Hf s; [by eexists|].
  cbn [forEachM]. destruct (Hf s a ltac:(left)) as [s1 ->].
  cbn [mbind result_bind]. apply IH. intros s2 b Hb. apply Hf. by right.
Qed.

(** ** First-encounter order *)

Lemma firstSeen_elem (x : nat) (l : list nat) : x ∈ firstSeen l ↔ x ∈ l.
Proof.
  induction l as [|y l IH]; [done|]. cbn [firstSeen].
  rewrite !elem_of_cons, list_elem_of_filter, IH.
  destruct (decide (x = y)); tauto.
Qed.

Lemma firstSeen_snoc (l : list nat) (x : nat) :
  firstSeen (l ++ [x])
  = if decide (x ∈ l) then firstSeen l else firstSeen l ++ [x].
Proof.
  induction l as [|y l IH]; [done|].
  cbn [app firstSeen]. rewrite IH.
  destruct (decide (x ∈ l)) as [Hin|Hnin].
  - rewrite decide_True by (by right). done.
  - rewrite filter_app, filter_cons, filter_nil.
    destruct (decide (x = y)) as [->|Hne].
    + rewrite decide_False by (by intros ?). rewrite decide_True by left.
      by rewrite app_nil_r.
    + rewrite decide_True by done.
      rewrite decide_False; [done|]. by intros [?|?]%elem_of_cons.
Qed.

(** A list filtered with two predicates that agree on its elements. *)
Lemma filter_agree {A : Type} (P Q : A → Prop) `{!∀ x, Decision (P x)}
    `{!∀ x, Decision (Q x)} (l : list A) :
  Forall (λ x, P x ↔ Q x) l → filter P l = filter Q l.
Proof.
  induction 1 as [|x l Hx _ IH]; [done|].
  rewrite !filter_cons, IH.
  destruct (decide (P x)), (decide (Q x)); [done | tauto | tauto | done].
Qed.

Section Children.
Context {Inst : Type} `{!Library Inst}.
Implicit Types (σ : Store Inst) (c : Container) (w : Walk Inst).

(** ** The second pass of [getChildren] *)

Lemma removeLoop_filter (h : nat → Obj Inst) (pre kept : list nat) :
  removeLoop h (length pre) (pre ++ kept)
  = Ok (filter (λ i, renderable (state (h i)) = true) pre ++ kept).
Proof.
  revert kept. induction pre as [|x pre IH] using rev_ind; intros kept; [done|].
  rewrite length_app, Nat.add_1_r. cbn [removeLoop].
  rewrite <- (assoc_L (++)). cbn [app].
  rewrite list_lookup_middle by done. cbn [defined mbind result_bind].
  rewrite filter_app, filter_cons, filter_nil.
  destruct (renderable (state (h x))) eqn:Hx.
  - rewrite decide_True by done. rewrite IH. by rewrite <- (assoc_L (++)).
  - rewrite decide_False by done.
    rewrite delete_middle, IH, app_nil_r. done.
Qed.

Lemma getChildren_filter σ c :
  getChildren σ c
  = ('(σ', c', candidates) ← walkFrames σ c;
     Ok (σ', c',
         reverse (filter (λ i, renderable (state (heap σ' i)) = true)
                         candidates))).
Proof.
  unfold getChildren. destruct (walkFrames σ c) as [[[σ' c'] cands]|]; [|done].
  cbn [mbind result_bind].
  pose proof (removeLoop_filter (heap σ') cands []) as Hloop.
  rewrite !app_nil_r in Hloop. by rewrite Hloop.
Qed.

(** ** The walk over the frames *)

Lemma walkFrames_walkOrder σ c :
  walkFrames σ c = forEachM step (walkOrder (frames c)) (σ, c, []).
Proof.
  unfold walkFrames, walkOrder. generalize (σ, c, @nil nat).
  induction (frames c) as [|fr fs IH]; intros w; [done|].
  cbn [forEachM]. rewrite bind_cons, forEachM_app, forEachM_fmap.
  change (forEachM (λ s a, step s (frame fr, a)) (commands fr) w)
    with (forEachM (commandStep (frame fr)) (commands fr) w).
  destruct (forEachM (commandStep (frame fr)) (commands fr) w) as [w'|]; [|done].
  cbn [mbind result_bind]. apply IH.
Qed.

Lemma handle_instancesMap c (ev : Event) :
  instancesMap (handle c ev) = instancesMap c.
Proof. by destruct ev. Qed.

Lemma foldl_handle_instancesMap (evs : list Event) c :
  instancesMap (foldl handle c evs) = instancesMap c.
Proof.
  revert c. induction evs as [|ev evs IH]; intros c; [done|].
  cbn [foldl]. by rewrite IH, handle_instancesMap.
Qed.

Lemma lookupOrCreate_Ok σ c (command : Command) σ1 c1 (inst : nat) :
  lookupOrCreate σ c command = Ok (σ1, c1, inst) →
  (instancesMap c !! instanceId command = Some inst ∧ σ1 = σ ∧ c1 = c)
  ∨ (instancesMap c !! instanceId command = None
     ∧ inst = next σ
     ∧ ∃ snd s0,
         createInstance (assetId command) (instanceId command) = Some (snd, s0)
         ∧ σ1 = mkStore (<[next σ := mkObj snd s0]> (heap σ)) (S (next σ))
                  (created σ ++ [(assetId command, instanceId command, next σ)])
                  (attached σ)
         ∧ c1 = set_instancesMap c
                  (<[instanceId command := next σ]> (instancesMap c))).
Proof.
  unfold lookupOrCreate.
  destruct (instancesMap c !! instanceId command) as [i|] eqn:Hlk.
  - intros [= <- <- <-]. by left.
  - destruct (createInstance _ _) as [[snd s0]|]; [|discriminate].
    cbn [defined mbind result_bind]. intros [= <- <- <-]. right. eauto 10.
Qed.

Lemma commandStep_Ok (fr : Z) σ c (cands : list nat) (command : Command) w' :
  commandStep fr (σ, c, cands) command = Ok w' →
  ∃ σ1 c1 inst s' evs,
    lookupOrCreate σ c command = Ok (σ1, c1, inst)
    ∧ addToFrame (state (heap σ1 inst)) fr command = (s', evs)
    ∧ w' = (mkStore (<[inst := mkObj (sound (heap σ1 inst)) s']> (heap σ1))
                    (next σ1) (created σ1)
                    (attached σ1 ++ [(inst, fr, command)]),
            foldl handle c1 evs,
            if negb (sound (heap σ1 inst)) && bool_decide (inst ∉ cands)
            then cands ++ [inst] else cands).
Proof.
  unfold commandStep. intros Hok.
  apply bind_Ok in Hok as ([[σ1 c1] inst] & Hl & Hok).
  unfold attach in Hok.
  destruct (addToFrame (state (heap σ1 inst)) fr command) as [s' evs] eqn:Hadd.
  cbn [heap] in Hok. rewrite fn_lookup_insert in Hok. cbn [sound] in Hok.
  exists σ1, c1, inst, s', evs. split; [done|]. split; [done|].
  by destruct (negb _ && _); injection Hok as <-.
Qed.


(** ** The invariant of the walk *)

Lemma WalkInv_init (h : nat → Obj Inst) (n : nat) (nm : string) (fs : list Frame) :
  WalkInv [] (mkStore h n [] [], mkContainer nm fs ∅ [] [] [], []).
Proof.
  split; cbn.
  - constructor.
  - intros id r. rewrite lookup_empty. split; [done|].
    intros [a Ha]. by apply elem_of_nil in Ha.
  - intros id. rewrite lookup_empty. split; [by intros [? ?]|].
    intros (x & Hx & _). by apply elem_of_nil in Hx.
  - intros a id r Ha. by apply elem_of_nil in Ha.
  - constructor.
  - intros id r. by rewrite lookup_empty.
  - constructor.
  - constructor.
  - constructor.
  - done.
Qed.

Lemma sound_attach (h : nat → Obj Inst) (inst : nat) (s : Inst) (r : nat) :
  sound (<[inst := mkObj (sound (h inst)) s]> h r) = sound (h r).
Proof.
  destruct (decide (inst = r)) as [->|Hne].
  - by rewrite fn_lookup_insert.
  - by rewrite fn_lookup_insert_ne.
Qed.

Lemma cands_push (h h' : nat → Obj Inst) (nx nx' inst : nat) (b : bool)
    (cands : list nat) :
  Forall (λ r, r < nx ∧ sound (h r) = false) cands →
  nx ≤ nx' → (∀ r, r < nx → sound (h' r) = sound (h r)) →
  inst < nx' → sound (h' inst) = b →
  Forall (λ r, r < nx' ∧ sound (h' r) = false)
         (if negb b && bool_decide (inst ∉ cands) then cands ++ [inst] else cands).
Proof.
  intros Hc Hle Hsame Hinst Hb.
  assert (Hold : Forall (λ r, r < nx' ∧ sound (h' r) = false) cands).
  { eapply Forall_impl; [exact Hc|]. intros r [Hr Hs]. split; [lia|].
    by rewrite Hsame. }
  destruct b; cbn [negb andb]; [done|].
  case_bool_decide; [|done].
  apply Forall_app. split; [done|]. by repeat constructor.
Qed.

Lemma cands_push_nodup (inst : nat) (b : bool) (cands : list nat) :
  NoDup cands →
  NoDup (if b && bool_decide (inst ∉ cands) then cands ++ [inst] else cands).
Proof.
  intros Hnd. destruct b; cbn [andb]; [|done].
  case_bool_decide; [|done].
  apply NoDup_app. split; [done|]. split; [|apply NoDup_singleton].
  intros x Hx ->%list_elem_of_singleton. done.
Qed.

Lemma cands_push_first (h h' : nat → Obj Inst) (nx inst : nat) (b : bool)
    (cands refs : list nat) :
  cands = firstSeen (filter (λ r, sound (h r) = false) refs) →
  Forall (λ r, r < nx) refs →
  (∀ r, r < nx → sound (h' r) = sound (h r)) →
  sound (h' inst) = b →
  (if negb b && bool_decide (inst ∉ cands) then cands ++ [inst] else cands)
  = firstSeen (filter (λ r, sound (h' r) = false) (refs ++ [inst])).
Proof.
  intros -> Hrefs Hsame Hb.
  rewrite filter_app, filter_cons, filter_nil, Hb.
  rewrite (filter_agree (λ r, sound (h' r) = false) (λ r, sound (h r) = false)).
  2:{ eapply Forall_impl; [exact Hrefs|]. intros r Hr. cbn. by rewrite Hsame. }
  destruct b; cbn [negb andb].
  - rewrite decide_False by done. by rewrite app_nil_r.
  - rewrite decide_True by done. rewrite firstSeen_snoc.
    case_bool_decide as Hin; rewrite firstSeen_elem in Hin.
    + by rewrite decide_False.
    + by rewrite decide_True.
Qed.

Lemma attached_fresh (m : gmap Z nat) (nx : nat)
    (att : list (nat * Z * Command)) (done : list (Z * Command)) :
  Forall2 (λ call x, call.1.2 = x.1 ∧ call.2 = x.2
                     ∧ m !! instanceId x.2 = Some call.1.1) att done →
  (∀ id r, m !! id = Some r → r < nx) →
  Forall (λ r, r < nx) ((λ call, call.1.1) <$> att).
Proof.
  intros Hatt Hfresh. apply Forall_fmap.
  induction Hatt as [|call x att done (_ & _ & Hm) _ IH]; constructor; [|done].
  by eapply Hfresh.
Qed.

Lemma WalkInv_step (done : list (Z * Command)) w (x : Z * Command) w' :
  WalkInv done w → step w x = Ok w' → WalkInv (done ++ [x]) w'.
Proof.
  destruct w as [[σ c] cands], x as [fr command].
  intros [H1 H2 H3 H4 H5 H6 H7 H8 H9 H10] Hok. cbn [fst snd] in *.
  pose proof (attached_fresh _ _ _ _ H5 H6) as Hatt.
  unfold step in Hok. cbn [fst snd] in Hok.
  apply commandStep_Ok in Hok as (σ1 & c1 & inst & s' & evs & Hl & Hadd & ->).
  apply lookupOrCreate_Ok in Hl
    as [(Hfound & -> & ->) | (Hnone & -> & isSound & s0 & Hcreate & -> & ->)].
  - (* the instance is in the map *)
    split; cbn [fst snd heap next created attached];
      rewrite ?foldl_handle_instancesMap.
    + done.
    + done.
    + intros id. rewrite H3. split.
      * intros (y & Hy & <-). exists y. split; [|done].
        apply elem_of_app. by left.
      * intros (y & [Hy|Hy]%elem_of_app & <-); [by eauto|].
        apply list_elem_of_singleton in Hy as ->. cbn [snd].
        apply H3. by rewrite Hfound.
    + intros a id r Ha. destruct (H4 a id r Ha) as (y & Hy & Hya).
      exists y. split; [|done]. apply elem_of_app. by left.
    + apply Forall2_app; [done|]. by repeat constructor.
    + done.
    + apply (cands_push (heap σ) _ (next σ)); try done.
      * intros r _. apply sound_attach.
      * by eapply H6.
      * apply sound_attach.
    + by apply cands_push_nodup.
    + done.
    + rewrite fmap_app. apply (cands_push_first (heap σ) _ (next σ)); try done.
      * intros r _. apply sound_attach.
      * apply sound_attach.
  - (* the library makes the instance *)
    assert (Hnew : instanceId command ∉ ids (created σ)).
    { intros ([[a id] r] & Heq & Hin)%list_elem_of_fmap. cbn in Heq. subst id.
      assert (instancesMap c !! instanceId command = Some r) as Hsome
        by (apply H2; eauto).
      congruence. }
    split; cbn [fst snd heap next created attached instancesMap set_instancesMap];
      rewrite ?foldl_handle_instancesMap;
      cbn [instancesMap set_instancesMap].
    + unfold ids. rewrite fmap_app. apply NoDup_app. split; [done|].
      split; [|apply NoDup_singleton].
      intros id Hid ->%list_elem_of_singleton. done.
    + intros id r. destruct (decide (id = instanceId command)) as [->|Hne].
      * rewrite lookup_insert_eq. split.
        -- intros [= <-]. exists (assetId command).
           apply elem_of_app. right. by apply list_elem_of_singleton.
        -- intros (a & [Ha|Ha]%elem_of_app).
           ++ exfalso. apply Hnew. apply list_elem_of_fmap.
              by exists (a, instanceId command, r).
           ++ apply list_elem_of_singleton in Ha. by injection Ha as _ ->.
      * rewrite lookup_insert_ne by done. rewrite H2. split.
        -- intros (a & Ha). exists a. apply elem_of_app. by left.
        -- intros (a & [Ha|Ha]%elem_of_app); [by eauto|].
           apply list_elem_of_singleton in Ha. by injection Ha as _ ? _.
    + intros id. destruct (decide (id = instanceId command)) as [->|Hne].
      * rewrite lookup_insert_eq. split; [|by eauto].
        intros _. exists (fr, command). split; [|done].
        apply elem_of_app. right. by apply list_elem_of_singleton.
      * rewrite lookup_insert_ne by done. rewrite H3. split.
        -- intros (y & Hy & <-). exists y. split; [|done].
           apply elem_of_app. by left.
        -- intros (y & [Hy|Hy]%elem_of_app & <-); [by eauto|].
           apply list_elem_of_singleton in Hy as ->. done.
    + intros a id r [Ha|Ha]%elem_of_app.
      * destruct (H4 a id r Ha) as (y & Hy & Hya).
        exists y. split; [|done]. apply elem_of_app. by left.
      * apply list_elem_of_singleton in Ha. injection Ha as -> -> ->.
        exists (fr, command). split; [|done].
        apply elem_of_app. right. by apply list_elem_of_singleton.
    + apply Forall2_app.
      * eapply Forall2_impl; [exact H5|].
        intros call y (Hf & Hc & Hm). split; [done|]. split; [done|].
        rewrite lookup_insert_ne; [done|]. intros Heq. congruence.
      * repeat constructor. cbn [fst snd]. by rewrite lookup_insert_eq.
    + intros id r. destruct (decide (id = instanceId command)) as [->|Hne].
      * rewrite lookup_insert_eq. intros [= <-]. lia.
      * rewrite lookup_insert_ne by done. intros Hr%H6. lia.
    + apply (cands_push (heap σ) _ (next σ)); try done.
      * lia.
      * intros r Hr. rewrite fn_lookup_insert.
        rewrite !fn_lookup_insert_ne by lia. done.
      * lia.
      * by rewrite !fn_lookup_insert.
    + by apply cands_push_nodup.
    + rewrite fmap_app. apply NoDup_app. split; [done|].
      split; [|apply NoDup_singleton].
      intros r ([[a id] r'] & Heq & Hin)%list_elem_of_fmap ->%list_elem_of_singleton.
      cbn in Heq. subst r'.
      assert (next σ < next σ); [|lia].
      apply (H6 id). apply H2. eauto.
    + rewrite fmap_app. apply (cands_push_first (heap σ) _ (next σ)); try done.
      * intros r Hr. rewrite fn_lookup_insert.
        rewrite !fn_lookup_insert_ne by lia. done.
      * by rewrite !fn_lookup_insert.
Qed.

Lemma WalkInv_walkFrames (h : nat → Obj Inst) (n : nat) (nm : string)
    (fs : list Frame) w :
  walkFrames (mkStore h n [] []) (mkContainer nm fs ∅ [] [] []) = Ok w →
  WalkInv (walkOrder fs) w.
Proof.
  rewrite walkFrames_walkOrder. cbn [frames]. intros Hrun.
  apply (forEachM_invariant WalkInv step WalkInv_step _ [] _ _
           (WalkInv_init h n nm fs) Hrun).
Qed.

(** ** The state of the instances during the walk *)

Lemma created_same_ref (l : list (Z * Z * nat)) (a1 a2 id1 id2 : Z) (r : nat) :
  NoDup ((λ x, x.2) <$> l) →
  (a1, id1, r) ∈ l → (a2, id2, r) ∈ l → id1 = id2.
Proof.
  intros Hnd [i Hi]%list_elem_of_lookup_1 [j Hj]%list_elem_of_lookup_1.
  assert (i = j) as ->.
  { eapply (NoDup_lookup _ i j r Hnd); by rewrite list_lookup_fmap, ?Hi, ?Hj. }
  congruence.
Qed.

Lemma commandsOf_snoc (id : Z) (xs : list (Z * Command)) (x : Z * Command) :
  commandsOf id (xs ++ [x])
  = commandsOf id xs ++ (if decide (instanceId x.2 = id) then [x] else []).
Proof. unfold commandsOf. by rewrite filter_app, filter_cons, filter_nil. Qed.

Lemma replay_snoc (s0 : Inst) (xs : list (Z * Command)) (x : Z * Command) :
  replay s0 (xs ++ [x]) = (addToFrame (replay s0 xs) x.1 x.2).1.
Proof. unfold replay. by rewrite foldl_app. Qed.

Lemma commandsOf_unseen (id : Z) (xs : list (Z * Command)) :
  (∀ y, y ∈ xs → instanceId y.2 ≠ id) → commandsOf id xs = [].
Proof.
  unfold commandsOf. induction xs as [|y xs IH]; intros Hno; [done|].
  rewrite filter_cons, decide_False by (apply Hno; left).
  apply IH. intros z Hz. apply Hno. by right.
Qed.

Lemma StateInv_init (h : nat → Obj Inst) (n : nat) (nm : string)
    (fs : list Frame) :
  StateInv [] (mkStore h n [] [], mkContainer nm fs ∅ [] [] [], []).
Proof. intros a id r Ha. by apply elem_of_nil in Ha. Qed.

Lemma StateInv_step (done : list (Z * Command)) w (x : Z * Command) w' :
  WalkInv done w → StateInv done w → step w x = Ok w' →
  StateInv (done ++ [x]) w'.
Proof.
  destruct w as [[σ c] cands], x as [fr command].
  intros [_ H2 H3 _ _ H6 _ _ H9 _] HS Hok. cbn [fst snd] in *.
  unfold StateInv in *. cbn [fst snd] in *.
  unfold step in Hok. cbn [fst snd] in Hok.
  apply commandStep_Ok in Hok as (σ1 & c1 & inst & s' & evs & Hl & Hadd & ->).
  cbn [fst snd heap created].
  apply lookupOrCreate_Ok in Hl
    as [(Hfound & -> & ->) | (Hnone & -> & isSound & s0 & Hcreate & -> & ->)].
  - (* the instance is in the map: one more command for it *)
    intros a id r Ha. destruct (HS a id r Ha) as (b & s0 & Hc & Hb & Hs).
    exists b, s0. split; [done|]. rewrite sound_attach. split; [done|].
    rewrite commandsOf_snoc. cbn [snd].
    destruct (proj1 (H2 _ _) Hfound) as [a' Ha'].
    destruct (decide (inst = r)) as [->|Hne].
    + assert (instanceId command = id) as Hid by (by eapply created_same_ref).
      rewrite fn_lookup_insert, decide_True by done. cbn [state].
      rewrite replay_snoc, <- Hs. cbn [fst snd]. by rewrite Hadd.
    + rewrite fn_lookup_insert_ne by done.
      rewrite decide_False, app_nil_r; [done|].
      intros Hid. apply Hne. subst id.
      assert (instancesMap c !! instanceId command = Some r) as Hr
        by (apply H2; eauto).
      congruence.
  - (* the library makes the instance: its first command *)
    cbn [heap created] in *. rewrite fn_lookup_insert in Hadd. cbn [state] in Hadd.
    intros a id r [Ha|Ha]%elem_of_app.
    + destruct (HS a id r Ha) as (b & s1 & Hc & Hb & Hs).
      exists b, s1. split; [done|]. rewrite sound_attach.
      assert (r < next σ) as Hr by (eapply (H6 id); apply H2; eauto).
      rewrite !fn_lookup_insert_ne by lia. split; [done|].
      rewrite commandsOf_snoc. cbn [snd].
      rewrite decide_False, app_nil_r; [done|].
      intros Hid. subst id.
      assert (instancesMap c !! instanceId command = Some r) as Hsome
        by (apply H2; eauto).
      congruence.
    + apply list_elem_of_singleton in Ha. injection Ha as -> -> ->.
      exists isSound, s0. split; [done|].
      rewrite !fn_lookup_insert. cbn [sound state]. split; [done|].
      rewrite commandsOf_snoc. cbn [snd]. rewrite decide_True by done.
      rewrite commandsOf_unseen.
      * cbn [app]. unfold replay. cbn [foldl fst snd]. by rewrite Hadd.
      * intros y Hy Hid.
        assert (is_Some (instancesMap c !! instanceId command)) as [? ?].
        { apply H3. eauto. }
        congruence.
Qed.

Lemma walkFrames_state (h : nat → Obj Inst) (n : nat) (nm : string)
    (fs : list Frame) w :
  walkFrames (mkStore h n [] []) (mkContainer nm fs ∅ [] [] []) = Ok w →
  StateInv (walkOrder fs) w.
Proof.
  rewrite walkFrames_walkOrder. cbn [frames]. intros Hrun.
  apply (forEachM_invariant (λ done w, WalkInv done w ∧ StateInv done w) step)
    with (done := []) (l := walkOrder fs)
         (s := (mkStore h n [] [], mkContainer nm fs ∅ [] [] [], []));
    [|split; [apply WalkInv_init | apply StateInv_init]|done].
  intros done w0 a w1 [HW HS] Hstep. split.
  - by eapply WalkInv_step.
  - by eapply StateInv_step.
Qed.

(** ** Termination of the walk *)

Lemma step_returns w (x : Z * Command) :
  is_Some (createInstance (assetId x.2) (instanceId x.2)) →
  ∃ w', step w x = Ok w'.
Proof.
  destruct w as [[σ c] cands]. intros [[isSound s0] Hc].
  unfold step, commandStep, lookupOrCreate.
  destruct (instancesMap c !! instanceId x.2) as [inst|].
  - cbn [mbind result_bind]. destruct (attach σ c inst x.1 x.2) as [σ2 c2].
    destruct (negb _ && _); eauto.
  - rewrite Hc. cbn [defined mbind result_bind].
    destruct (attach _ _ _ x.1 x.2) as [σ2 c2].
    destruct (negb _ && _); eauto.
Qed.

Lemma getChildren_returns σ c :
  (∀ x, x ∈ walkOrder (frames c) →
        is_Some (createInstance (assetId x.2) (instanceId x.2))) →
  ∃ σ' c' ch, getChildren σ c = Ok (σ', c', ch).
Proof.
  intros Hall. rewrite getChildren_filter, walkFrames_walkOrder.
  destruct (forEachM_returns step (walkOrder (frames c))
              (λ w x Hx, step_returns w x (Hall x Hx)) (σ, c, []))
    as [[[σ' c'] cands] ->].
  cbn [mbind result_bind]. eauto.
Qed.

Lemma getChildren_Ok σ c σ' c' (ch : list nat) :
  getChildren σ c = Ok (σ', c', ch) →
  ∃ cands, walkFrames σ c = Ok (σ', c', cands)
           ∧ ch = reverse (filter (λ i, renderable (state (heap σ' i)) = true)
                                  cands).
Proof.
  rewrite getChildren_filter.
  destruct (walkFrames σ c) as [[[σ1 c1] cands]|]; [|discriminate].
  cbn [mbind result_bind]. intros [= <- <- <-]. eauto.
Qed.

(** ** The claims on [getChildren] *)

(** C3: in [getChildren], run by the constructor, the library's
    [createInstance] is called once for each distinct [instanceId] of the
    commands and for no other id, with the asset of a command of that id;
    the objects made are distinct and each is in [instancesMap] under its
    id; and the calls of [addToFrame] are, in order, the commands in walk
    order (frames in their order, commands in theirs), each on the instance
    of its id. In the heap that is returned, the object made for an id is of
    the class [createInstance] answered, and its state is the state
    [createInstance] answered after [addToFrame] with each command of that
    id, with its frame, in walk order. The walk returns whenever the
    library resolves every command. *)
Theorem getChildren_creates_once (h : nat → Obj Inst) (n : nat) (nm : string)
    (fs : list Frame) :
  let σ0 := mkStore h n [] [] in
  let c0 := mkContainer nm fs ∅ [] [] [] in
  ((∀ x, x ∈ walkOrder fs →
         is_Some (createInstance (assetId x.2) (instanceId x.2))) →
   ∃ σ c ch, getChildren σ0 c0 = Ok (σ, c, ch))
  ∧ (∀ σ c ch, getChildren σ0 c0 = Ok (σ, c, ch) →
       NoDup (ids (created σ))
       ∧ (∀ id, id ∈ ids (created σ)
                ↔ ∃ x, x ∈ walkOrder fs ∧ instanceId x.2 = id)
       ∧ length (created σ)
         = size (list_to_set ((λ x, instanceId x.2) <$> walkOrder fs) : gset Z)
       ∧ NoDup ((λ x, x.2) <$> created σ)
       ∧ (∀ a id r, (a, id, r) ∈ created σ →
            instancesMap c !! id = Some r
            ∧ ∃ x, x ∈ walkOrder fs ∧ assetId x.2 = a ∧ instanceId x.2 = id)
       ∧ Forall2 (λ call x, call.1.2 = x.1 ∧ call.2 = x.2
                            ∧ instancesMap c !! instanceId x.2 = Some call.1.1)
                 (attached σ) (walkOrder fs)
       ∧ (∀ a id r, (a, id, r) ∈ created σ →
            ∃ isSound s0,
              createInstance a id = Some (isSound, s0)
              ∧ sound (heap σ r) = isSound
              ∧ state (heap σ r)
                = foldl (λ s x, (addToFrame s x.1 x.2).1) s0
                        (filter (λ x, instanceId x.2 = id) (walkOrder fs)))).
Proof.
  intros σ0 c0. split; [apply (getChildren_returns σ0 c0)|].
  intros σ c ch (cands & Hwalk & _)%getChildren_Ok.
  pose proof (walkFrames_state h n nm fs _ Hwalk) as HS.
  apply WalkInv_walkFrames in Hwalk as [H1 H2 H3 H4 H5 H6 H7 H8 H9 H10].
  cbn [fst snd] in *.
  assert (Hids : ∀ id, id ∈ ids (created σ)
                       ↔ ∃ x, x ∈ walkOrder fs ∧ instanceId x.2 = id).
  { intros id. rewrite <- H3. unfold ids. rewrite list_elem_of_fmap. split.
    - intros ([[a id'] r] & -> & Hin). cbn. exists r. apply H2. eauto.
    - intros [r (a & Ha)%H2]. by exists (a, id, r). }
  split; [done|]. split; [done|].
  split; [|split; [done|split; [|split; [done|]]]].
  - rewrite <- (length_fmap (λ x, x.1.2)). fold (ids (created σ)).
    rewrite <- (size_list_to_set (C := gset Z)) by done.
    f_equal. apply set_eq. intros id.
    rewrite !elem_of_list_to_set, Hids, list_elem_of_fmap. split.
    + intros (x & Hx & <-). by exists x.
    + intros (x & -> & Hx). by exists x.
  - intros a id r Ha. split; [apply H2; eauto | by eapply H4].
  - intros a id r Ha. exact (HS a id r Ha).
Qed.

(** C5: the children that [getChildren] returns hold no [SoundInstance] and
    no instance whose [renderable] is false once all frames are processed;
    yet every command, of a sound or not, was given to [addToFrame] of the
    instance of its id. *)
Theorem getChildren_no_sound_no_unrenderable (h : nat → Obj Inst) (n : nat)
    (nm : string) (fs : list Frame) :
  let σ0 := mkStore h n [] [] in
  let c0 := mkContainer nm fs ∅ [] [] [] in
  ((∀ x, x ∈ walkOrder fs →
         is_Some (createInstance (assetId x.2) (instanceId x.2))) →
   ∃ σ c ch, getChildren σ0 c0 = Ok (σ, c, ch))
  ∧ (∀ σ c ch, getChildren σ0 c0 = Ok (σ, c, ch) →
       Forall (λ r, sound (heap σ r) = false
                    ∧ renderable (state (heap σ r)) = true) ch
       ∧ NoDup ch
       ∧ (∀ x, x ∈ walkOrder fs →
            ∃ r, instancesMap c !! instanceId x.2 = Some r
                 ∧ (r, x.1, x.2) ∈ attached σ)).
Proof.
  intros σ0 c0. split; [apply (getChildren_returns σ0 c0)|].
  intros σ c ch (cands & Hwalk & ->)%getChildren_Ok.
  apply WalkInv_walkFrames in Hwalk as [H1 H2 H3 H4 H5 H6 H7 H8 H9 H10].
  cbn [fst snd] in *. split; [|split].
  - apply Forall_forall. intros r Hr.
    apply elem_of_reverse, list_elem_of_filter in Hr as [Hrend Hin].
    split; [|done].
    by apply (proj1 (Forall_forall _ _) H7 r Hin).
  - rewrite reverse_Permutation. by apply NoDup_filter.
  - intros x (i & Hi)%list_elem_of_lookup_1.
    destruct (Forall2_lookup_r _ _ _ _ _ H5 Hi) as ([[r fr] command] & Hcall & Hf & Hc & Hm).
    cbn [fst snd] in *. exists r. split; [done|].
    apply list_elem_of_lookup_2 in Hcall. destruct x as [fr' command'].
    cbn [fst snd] in *. by subst.
Qed.

(** C4: [getChildren] returns the candidates of the walk, filtered in order
    by [renderable] as it is after the walk, and then reversed: the backward
    pass with [splice] keeps exactly what a forward stable filter keeps. The
    candidates are the instances that are no [SoundInstance], each once, in
    the order of their first command. *)
Theorem getChildren_stable_filter (h : nat → Obj Inst) (n : nat) (nm : string)
    (fs : list Frame) :
  let σ0 := mkStore h n [] [] in
  let c0 := mkContainer nm fs ∅ [] [] [] in
  getChildren σ0 c0
  = ('(σ', c', candidates) ← walkFrames σ0 c0;
     Ok (σ', c',
         reverse (filter (λ i, renderable (state (heap σ' i)) = true)
                         candidates)))
  ∧ (∀ σ' c' candidates,
       walkFrames σ0 c0 = Ok (σ', c', candidates) →
       candidates
       = firstSeen (filter (λ r, sound (heap σ' r) = false)
                           ((λ call, call.1.1) <$> attached σ'))).
Proof.
  intros σ0 c0. split; [apply getChildren_filter|].
  intros σ' c' cands Hwalk.
  by apply WalkInv_walkFrames in Hwalk as [_ _ _ _ _ _ _ _ _ H10].
Qed.

End Children.

(** ** The sample timeline *)

Lemma sampleFrames_resolved (x : Z * Command) :
  x ∈ walkOrder sampleFrames →
  is_Some (createInstance (assetId x.2) (instanceId x.2)).
Proof.
  intros Hx. vm_compute in Hx.
  repeat (apply elem_of_cons in Hx as [->|Hx]; [by eexists|]).
  by apply elem_of_nil in Hx.
Qed.

Lemma getChildren_creates_once_witness :
  ∃ σ c ch,
    getChildren sampleStore (mkContainer "tl" sampleFrames ∅ [] [] [])
    = Ok (σ, c, ch)
    ∧ length (created σ) = 4
    ∧ (1%Z, 2%Z, 0) ∈ created σ
    ∧ s_history (state (heap σ 0))
      = [(0%Z, mkCommand 2 1 None); (2%Z, mkCommand 2 1 None)].
Proof.
  destruct (getChildren_creates_once sampleHeap 0 "tl" sampleFrames)
    as [Hret Hcalls].
  destruct (Hret sampleFrames_resolved) as (σ & c & ch & Hok).
  exists σ, c, ch. split; [exact Hok|].
  destruct (Hcalls σ c ch Hok) as (_ & _ & Hlen & _ & _ & _ & Hstate).
  split; [rewrite Hlen; by vm_compute|].
  assert (Hin : (1%Z, 2%Z, 0) ∈ created σ).
  { unfold sampleStore in Hok. vm_compute in Hok. injection Hok as <- _ _.
    cbn [created]. left. }
  split; [exact Hin|].
  destruct (Hstate 1%Z 2%Z 0 Hin) as (isSound & s0 & Hc & _ & ->).
  vm_compute in Hc. injection Hc as _ <-. by vm_compute.
Defined.

Lemma getChildren_no_sound_no_unrenderable_witness :
  ∃ σ c ch,
    getChildren sampleStore (mkContainer "tl" sampleFrames ∅ [] [] [])
    = Ok (σ, c, ch)
    ∧ Forall (λ r, sound (heap σ r) = false
                   ∧ renderable (state (heap σ r)) = true) ch.
Proof.
  destruct (getChildren_no_sound_no_unrenderable sampleHeap 0 "tl" sampleFrames)
    as [Hret Hch].
  destruct (Hret sampleFrames_resolved) as (σ & c & ch & Hok).
  exists σ, c, ch. split; [exact Hok|].
  by destruct (Hch σ c ch Hok) as [? _].
Defined.

Lemma getChildren_stable_filter_witness :
  (λ x, x.2) <$> getChildren sampleStore (mkContainer "tl" sampleFrames ∅ [] [] [])
  = Ok [2; 0].
Proof.
  destruct (getChildren_stable_filter sampleHeap 0 "tl" sampleFrames) as [Heq _].
  unfold sampleStore. rewrite Heq. by vm_compute.
Defined.

(** The sample: the children are C then B (the reverse of B, C); the mask A
    and the sound are left out. *)
Example sample_children :
  children sampleWorld.2 = [2; 0]
  ∧ masks sampleWorld.2 = [mkMaskEntry (Some 0) (Some 1) 0 (Some 1%Z)]
  ∧ length (created sampleWorld.1) = 4.
Proof. by vm_compute. Qed.

End ContainerProps.

(* ===================================================================== *)
(** * More on Shape.js *)
(* ===================================================================== *)

Module ShapeMore.
Import Shape ShapeProps.

(** ** Rounding again and again *)

Lemma iter_fmap {A : Type} (f : A → A) (n : nat) (l : list A) :
  Nat.iter n (fmap f) l = Nat.iter n f <$> l.
Proof.
  induction n as [|n IH]; cbn [Nat.iter nat_rect].
  - by rewrite list_fmap_id.
  - change (nat_rect _ l (λ _, fmap f) n) with (Nat.iter n (fmap f) l).
    rewrite IH, <- list_fmap_compose. done.
Qed.

Lemma iter_roundValue_other (n : nat) (v : value) :
  (∀ x, v ≠ VNum x) → Nat.iter n roundValue v = v.
Proof.
  intros Hv. induction n as [|n IH]; [done|].
  cbn [Nat.iter nat_rect]. change (nat_rect _ v (λ _, roundValue) n) with (Nat.iter n roundValue v).
  rewrite IH. destruct v as [x| |]; [by destruct (Hv x)|done|done].
Qed.

Lemma iter_roundValue_num (n : nat) (x : float) :
  ∃ y, Nat.iter n roundValue (VNum x) = VNum y.
Proof.
  induction n as [|n [y IH]]; [by eexists|].
  cbn [Nat.iter nat_rect].
  change (nat_rect _ (VNum x) (λ _, roundValue) n)
    with (Nat.iter n roundValue (VNum x)).
  rewrite IH. by eexists.
Qed.

(** X13: whatever the data, and also when paths share an array, the
    construction of a shape keeps the length of every array, keeps every
    entry that is no number as it is and where it is, and leaves a number
    where there was one. *)
Theorem shape_keeps_shape_of_arrays (h : nat → list value) (paths : list Path)
    (l : nat) :
  length ((Shape h paths).1 l) = length (h l)
  ∧ (∀ k v, h l !! k = Some v → (∀ x, v ≠ VNum x) →
       (Shape h paths).1 l !! k = Some v)
  ∧ (∀ k x, h l !! k = Some (VNum x) →
       ∃ y, (Shape h paths).1 l !! k = Some (VNum y)).
Proof.
  rewrite Shape_eq. cbn [fst]. rewrite heapAfter_iter, iter_fmap.
  split; [by rewrite length_fmap|]. split.
  - intros k v Hk Hv. rewrite list_lookup_fmap, Hk.
    cbn [fmap option_fmap option_map]. by rewrite iter_roundValue_other.
  - intros k x Hk. rewrite list_lookup_fmap, Hk.
    cbn [fmap option_fmap option_map].
    destruct (iter_roundValue_num (writes l paths) x) as [y ->]. by exists y.
Qed.

(** ** The length of the draw list *)

Lemma sum_list_cons (x : nat) (l : list nat) :
  sum_list (x :: l) = x + sum_list l.
Proof. reflexivity. Qed.

Lemma length_prefixed (segs : list (list value)) :
  length (prefixed segs) = length segs + sum_list (length <$> segs).
Proof.
  unfold prefixed. induction segs as [|s segs IH]; [done|].
  rewrite !fmap_cons, sum_list_cons. cbn [concat].
  rewrite length_app, IH. cbn [length]. lia.
Qed.

Lemma length_joinCp (segs : list (list value)) :
  length (joinCp segs) = pred (length segs) + sum_list (length <$> segs).
Proof.
  destruct segs as [|s segs]; [done|].
  rewrite joinCp_cons, length_app, fmap_cons, sum_list_cons, length_prefixed.
  cbn [length pred]. lia.
Qed.

Lemma segmentsFrom_lengths (paths : list Path) :
  ∀ h : nat → list value,
    length <$> segmentsFrom h paths
    = (λ p, length (style p) + length (h (d p))) <$> paths.
Proof.
  induction paths as [|p rest IH]; intros h; [done|].
  cbn [segmentsFrom fmap list_fmap]. f_equal.
  - by rewrite length_app, length_fmap.
  - fold (fmap (M := list) (@length value)
               (segmentsFrom (<[d p := roundValue <$> h (d p)]> h) rest)).
    rewrite IH. apply list_fmap_ext. intros i q _. f_equal.
    destruct (decide (d p = d q)) as [->|Hne].
    + by rewrite fn_lookup_insert, length_fmap.
    + by rewrite fn_lookup_insert_ne.
Qed.

(** X14: the draw list has four values for the style of a stroke, three for
    a fill, the values of each path's array, and one ["cp"] per path after
    the first; it is empty only for no paths at all. *)
Theorem shape_draw_length (h : nat → list value) (paths : list Path) :
  length (s_draw (Shape h paths).2)
  = pred (length paths)
    + sum_list ((λ p, (if stroke p then 4 else 3) + length (h (d p))) <$> paths)
  ∧ (s_draw (Shape h paths).2 = [] ↔ paths = []).
Proof.
  rewrite Shape_eq. cbn [snd s_draw].
  assert (Hlen : length (joinCp (segmentsFrom h paths))
                 = pred (length paths)
                   + sum_list ((λ p, (if stroke p then 4 else 3)
                                     + length (h (d p))) <$> paths)).
  { rewrite length_joinCp, segmentsFrom_length, segmentsFrom_lengths.
    do 2 f_equal. apply list_fmap_ext. intros i p _. unfold style.
    by destruct (stroke p). }
  split; [exact Hlen|]. split.
  - intros Hnil. apply (f_equal length) in Hnil. rewrite Hlen in Hnil.
    destruct paths as [|p rest]; [done|]. exfalso.
    rewrite fmap_cons, sum_list_cons in Hnil. cbn [length] in Hnil.
    destruct (stroke p); lia.
  - by intros ->.
Qed.

(** X15: the data of a shape cannot be used again unchanged: a second shape
    built from the same paths finds the rounded arrays and rounds them
    again, so that each array has then been rounded twice for every path
    that holds it. *)
Theorem shape_twice_rounds_twice (h : nat → list value) (paths : list Path)
    (l : nat) :
  (Shape (Shape h paths).1 paths).1 l
  = Nat.iter (2 * writes l paths) (fmap roundValue) (h l)
  ∧ s_draw (Shape (Shape h paths).1 paths).2
    = joinCp (segmentsFrom (heapAfter h paths) paths).
Proof.
  rewrite !Shape_eq. cbn [fst snd s_draw]. split; [|done].
  rewrite !heapAfter_iter.
  replace (2 * writes l paths) with (writes l paths + writes l paths) by lia.
  by rewrite Nat.iter_add.
Qed.

End ShapeMore.

(* ===================================================================== *)
(** * More on Container.js *)
(* ===================================================================== *)

Module ContainerMore.
Import Container ContainerProps.

(** ** Mask events, composed *)

Lemma onMaskRemoved_eq (c : Container) (command : Command) (fr : Z) :
  onMaskRemoved c command fr
  = set_masks c (closeIf (instancesMap c !! instanceId command) fr <$> masks c).
Proof.
  unfold onMaskRemoved. f_equal. exact (forEachClose_app _ fr (masks c) []).
Qed.

Lemma closeIf_closeIf (m : option nat) (f1 f2 : Z) (entry : MaskEntry) :
  closeIf m f2 (closeIf m f1 entry) = closeIf m f2 entry.
Proof.
  unfold closeIf. destruct (decide (mask entry = m)) as [Hm|Hm].
  - cbn [close mask]. by rewrite decide_True.
  - by rewrite decide_False.
Qed.

(** X1: a second [onMaskRemoved] for the same mask overwrites the durations
    the first one wrote: only the last frame counts, also for intervals that
    were closed before. *)
Theorem onMaskRemoved_last_wins (c : Container) (command : Command) (f1 f2 : Z) :
  onMaskRemoved (onMaskRemoved c command f1) command f2
  = onMaskRemoved c command f2.
Proof.
  rewrite !onMaskRemoved_eq. unfold set_masks. cbn [instancesMap masks name frames children addChildren].
  f_equal. rewrite <- list_fmap_compose. apply list_fmap_ext.
  intros i entry _. apply closeIf_closeIf.
Qed.

(** X2: [onMaskAdded] followed by [onMaskRemoved] for the same command leaves
    the earlier intervals as [onMaskRemoved] alone leaves them, and after
    them one interval more: from the frame of the first call, with the
    instances at [instanceId] and [maskTill], closed with the difference of
    the two frames. The same holds when the mask is [undefined]. *)
Theorem onMaskAdded_then_removed (c : Container) (command : Command) (f f' : Z) :
  masks (onMaskRemoved (onMaskAdded c command f) command f')
  = masks (onMaskRemoved c command f')
    ++ [mkMaskEntry (maskTill command ≫= λ k, instancesMap c !! k)
                    (instancesMap c !! instanceId command) f
                    (Some (f' - f)%Z)].
Proof.
  rewrite !onMaskRemoved_eq. unfold onMaskAdded.
  cbn [set_masks masks instancesMap]. rewrite fmap_app. f_equal.
  cbn [fmap list_fmap]. unfold closeIf. cbn [mask].
  by rewrite decide_True.
Qed.

(** ** Mask events and the mask of an instance *)

Section MaskLookup.
Context {Inst : Type} `{!Library Inst}.
Implicit Types (h : nat → Obj Inst) (c : Container).

Lemma firstMask_closeIf h (m : option nat) (fr : Z) (ms : list MaskEntry)
    (inst : nat) :
  firstMask h (closeIf m fr <$> ms) inst = firstMask h ms inst.
Proof.
  induction ms as [|entry ms IH]; [done|].
  cbn [fmap list_fmap firstMask]. fold (fmap (M := list) (closeIf m fr) ms).
  rewrite IH. unfold closeIf.
  by destruct (decide (mask entry = m)).
Qed.

Lemma firstMask_app h (ms1 ms2 : list MaskEntry) (inst : nat) :
  firstMask h (ms1 ++ ms2) inst
  = if decide (Exists (λ e, instance e = Some inst) ms1)
    then firstMask h ms1 inst else firstMask h ms2 inst.
Proof.
  induction ms1 as [|entry ms1 IH].
  - cbn [app]. rewrite decide_False; [done|]. by intros ?%Exists_nil.
  - cbn [app firstMask].
    destruct (decide (instance entry = Some inst)) as [He|He].
    + rewrite decide_True; [done|]. by left.
    + rewrite IH. destruct (decide (Exists _ ms1)) as [Hex|Hex].
      * rewrite decide_True; [done|]. by right.
      * rewrite decide_False; [done|]. by intros [?|?]%Exists_cons.
Qed.

(** X3: closing intervals never changes the mask found for an instance: the
    answer of [getMaskByInstance] is the same before and after
    [onMaskRemoved], whatever the command and the frame. *)
Theorem getMaskByInstance_after_removed h c (command : Command) (fr : Z)
    (inst : nat) :
  getMaskByInstance h (onMaskRemoved c command fr) inst
  = getMaskByInstance h c inst.
Proof.
  rewrite !getMaskByInstance_firstMask, onMaskRemoved_eq.
  cbn [masks set_masks]. apply firstMask_closeIf.
Qed.

(** X4: a new interval never changes the mask of an instance that is already
    the target of an interval; an instance that is the target of none gets
    the mask of the new interval when it is its target, and stays without
    mask otherwise. *)
Theorem getMaskByInstance_after_added h c (command : Command) (fr : Z)
    (inst : nat) :
  (Exists (λ e, instance e = Some inst) (masks c) →
   getMaskByInstance h (onMaskAdded c command fr) inst
   = getMaskByInstance h c inst)
  ∧ (Forall (λ e, instance e ≠ Some inst) (masks c) →
     getMaskByInstance h (onMaskAdded c command fr) inst
     = if decide ((maskTill command ≫= λ k, instancesMap c !! k) = Some inst)
       then m ← defined (instancesMap c !! instanceId command);
            Ok (Some (localName (state (h m))))
       else Ok None).
Proof.
  rewrite !getMaskByInstance_firstMask. unfold onMaskAdded.
  cbn [masks set_masks]. rewrite firstMask_app. split.
  - intros Hex. by rewrite decide_True.
  - intros Hall. rewrite decide_False; [done|].
    intros Hex. apply Exists_exists in Hex as (e & He & Hinst).
    by apply (proj1 (Forall_forall _ _) Hall e He).
Qed.

End MaskLookup.

Lemma getMaskByInstance_after_added_witness :
  getMaskByInstance namedHeap (onMaskAdded maskedContainer (mkCommand 3 0 (Some 2%Z)) 7) 20
  = Ok (Some "i10")
  ∧ getMaskByInstance namedHeap (onMaskAdded maskedContainer (mkCommand 3 0 (Some 1%Z)) 7) 10
    = Ok (Some "i11").
Proof.
  split.
  - destruct (getMaskByInstance_after_added namedHeap maskedContainer
                (mkCommand 3 0 (Some 2%Z)) 7 20) as [Hkept _].
    rewrite Hkept; [by vm_compute|]. apply Exists_cons. by left.
  - destruct (getMaskByInstance_after_added namedHeap maskedContainer
                (mkCommand 3 0 (Some 1%Z)) 7 10) as [_ Hnew].
    rewrite Hnew; [by vm_compute|].
    vm_compute. repeat constructor; discriminate.
Defined.

(** ** Rendering more than once *)

Section RenderAgain.
Context {Inst : Type} `{!Library Inst}.
Implicit Types (h : nat → Obj Inst) (c : Container) (r : Renderer).

(** X5: a [getContents] pass that returns changes nothing of the container
    but [addChildren], and never removes a name from it: the names it had
    stay in front, followed by one new name per mask interval and per
    child. *)
Theorem getContents_only_appends h r c (b : string) (c' : Container) :
  getContents h r c = Ok (b, c') →
  name c' = name c
  ∧ frames c' = frames c
  ∧ instancesMap c' = instancesMap c
  ∧ masks c' = masks c
  ∧ children c' = children c
  ∧ ∃ new, addChildren c' = addChildren c ++ new
           ∧ length new = length (masks c) + length (children c).
Proof.
  intros Hok. pose proof (getContents_Ok h r c b c' Hok) as Hres.
  rewrite (getContents_resolved h r c Hres) in Hok. injection Hok as _ <-.
  cbn [name frames instancesMap masks children addChildren set_addChildren].
  do 5 (split; [done|]).
  eexists. split; [done|].
  by rewrite length_app, !length_fmap, maskRefs_length.
Qed.

(** X6: [render] does not reset [addChildren]. Called twice on a new
    container, it gives the same texts of masks and children both times, but
    the statement that adds the static children lists every name twice the
    second time, and [addChildren] ends twice as long. *)
Theorem render_twice_accumulates h r c :
  masksResolved (masks c) → addChildren c = [] →
  let names := (localNameOf h <$> maskRefs (masks c))
                 ++ (localNameOf h <$> children c) in
  let body := concatStr (fragment h r (masks c) <$> maskRefs (masks c))
              +:+ concatStr (fragment h r (masks c) <$> children c) in
  ∃ c1 c2,
    renderContainer h r c
    = Ok (template r "container" (name c) (body +:+ trailing r names), c1)
    ∧ renderContainer h r c1
      = Ok (template r "container" (name c)
                     (body +:+ trailing r (names ++ names)), c2)
    ∧ addChildren c1 = names
    ∧ addChildren c2 = names ++ names.
Proof.
  intros Hres Hempty names body.
  exists (set_addChildren c names), (set_addChildren c (names ++ names)).
  unfold renderContainer.
  rewrite (getContents_resolved h r c Hres), Hempty. cbn [mbind result_bind app].
  split; [done|].
  rewrite (getContents_resolved h r (set_addChildren c names) Hres).
  cbn [mbind result_bind name masks children addChildren set_addChildren].
  done.
Qed.

End RenderAgain.

Lemma getContents_only_appends_witness :
  ∃ b c' new,
    getContents (heap sampleWorld.1) sampleRenderer
      (set_addChildren sampleWorld.2 ["old"]) = Ok (b, c')
    ∧ addChildren c' = "old" :: new ∧ length new = 3.
Proof.
  destruct (getContents (heap sampleWorld.1) sampleRenderer
              (set_addChildren sampleWorld.2 ["old"])) as [[b c']|] eqn:Hok;
    [|by vm_compute in Hok].
  destruct (getContents_only_appends _ _ _ b c' Hok)
    as (_ & _ & _ & _ & _ & new & Hnew & Hlen).
  exists b, c', new. split; [done|]. split; [exact Hnew | exact Hlen].
Defined.

Lemma render_twice_accumulates_witness :
  ∃ c1 c2,
    renderContainer (heap sampleWorld.1) sampleRenderer sampleWorld.2
    = Ok ("container:tl{new(i1);new(i4);mask(i2,i1);this.addChild(i1, i4, i2);}", c1)
    ∧ renderContainer (heap sampleWorld.1) sampleRenderer c1
      = Ok ("container:tl{new(i1);new(i4);mask(i2,i1);this.addChild(i1, i4, i2, i1, i4, i2);}", c2).
Proof.
  destruct (render_twice_accumulates (heap sampleWorld.1) sampleRenderer
              sampleWorld.2 sampleWorld_resolved ltac:(by vm_compute))
    as (c1 & c2 & H1 & H2 & _).
  exists c1, c2. split.
  - rewrite H1. by vm_compute.
  - rewrite H2. by vm_compute.
Defined.

(** ** The construction *)

Section Build.
Context {Inst : Type} `{!Library Inst}.
Implicit Types (σ : Store Inst) (c : Container) (w : Walk Inst).

Lemma handle_fields c (ev : Event) :
  name (handle c ev) = name c ∧ frames (handle c ev) = frames c
  ∧ children (handle c ev) = children c
  ∧ addChildren (handle c ev) = addChildren c.
Proof. by destruct ev. Qed.

Lemma foldl_handle_fields (evs : list Event) c :
  name (foldl handle c evs) = name c ∧ frames (foldl handle c evs) = frames c
  ∧ children (foldl handle c evs) = children c
  ∧ addChildren (foldl handle c evs) = addChildren c.
Proof.
  revert c. induction evs as [|ev evs IH]; intros c; [done|].
  cbn [foldl]. destruct (IH (handle c ev)) as (-> & -> & -> & ->).
  apply handle_fields.
Qed.

Lemma closeIf_registered (m : gmap Z nat) (mk : option nat) (fr : Z)
    (entry : MaskEntry) :
  entryRegistered m entry → entryRegistered m (closeIf mk fr entry).
Proof. unfold closeIf. by destruct (decide (mask entry = mk)). Qed.

Lemma handle_registered c (ev : Event) :
  Forall (entryRegistered (instancesMap c)) (masks c) →
  Forall (entryRegistered (instancesMap (handle c ev))) (masks (handle c ev)).
Proof.
  intros Hreg. rewrite handle_instancesMap. destruct ev as [command fr|command fr].
  - cbn [handle onMaskAdded masks set_masks]. apply Forall_app. split; [done|].
    repeat constructor; cbn [mask instance]; intros r Hr.
    + by exists (instanceId command).
    + destruct (maskTill command) as [k|]; [|done]. by exists k.
  - cbn [handle]. rewrite onMaskRemoved_masks. apply Forall_fmap.
    eapply Forall_impl; [exact Hreg|]. intros entry. apply closeIf_registered.
Qed.

Lemma foldl_handle_registered (evs : list Event) c :
  Forall (entryRegistered (instancesMap c)) (masks c) →
  Forall (entryRegistered (instancesMap (foldl handle c evs)))
         (masks (foldl handle c evs)).
Proof.
  revert c. induction evs as [|ev evs IH]; intros c Hreg; [done|].
  cbn [foldl]. by apply IH, handle_registered.
Qed.

Lemma entryRegistered_insert (m : gmap Z nat) (k : Z) (r : nat)
    (entry : MaskEntry) :
  m !! k = None → entryRegistered m entry → entryRegistered (<[k := r]> m) entry.
Proof.
  intros Hk [Hm Hi].
  assert (Hmono : ∀ r', registered m r' → registered (<[k := r]> m) r').
  { intros r' [id Hid]. exists id. rewrite lookup_insert_ne; [done|].
    intros ->. congruence. }
  split; intros r' Hr'; apply Hmono; eauto.
Qed.

Lemma BuildInv_init (h0 : nat → Obj Inst) (n : nat) (nm : string)
    (fs : list Frame) :
  BuildInv h0 n nm fs [] (mkStore h0 n [] [], mkContainer nm fs ∅ [] [] [], []).
Proof.
  split; cbn [fst snd next created heap masks instancesMap name frames
              children addChildren length]; try done; try lia.
  - intros a id r Ha. by apply elem_of_nil in Ha.
  - intros a id r Ha. by apply elem_of_nil in Ha.
  - intros a id r Ha. by apply elem_of_nil in Ha.
Qed.

Lemma BuildInv_step (h0 : nat → Obj Inst) (n : nat) (nm : string) (fs : list Frame)
    (done : list (Z * Command)) w (x : Z * Command) w' :
  WalkInv done w → BuildInv h0 n nm fs done w → step w x = Ok w' →
  BuildInv h0 n nm fs (done ++ [x]) w'.
Proof.
  destruct w as [[σ c] cands], x as [fr command].
  intros [_ H2 H3 _ _ H6 _ _ _ _] [B1 B2 B3 B4 B5 BC B6 B7 B8 B9] Hok.
  cbn [fst snd] in *. unfold step in Hok. cbn [fst snd] in Hok.
  apply commandStep_Ok in Hok as (σ1 & c1 & inst & s' & evs & Hl & Hadd & ->).
  assert (Hlater : ∀ a id r,
            (a, id, r) ∈ created σ →
            ∃ pre y post,
              done ++ [(fr, command)] = pre ++ y :: post
              ∧ (∀ z, z ∈ pre → instanceId z.2 ≠ id)
              ∧ instanceId y.2 = id ∧ assetId y.2 = a).
  { intros a id r Ha. destruct (B5 a id r Ha) as (pre & y & post & -> & Hy).
    exists pre, y, (post ++ [(fr, command)]). split; [|done].
    by rewrite <- (assoc_L (++)). }
  apply lookupOrCreate_Ok in Hl
    as [(Hfound & -> & ->) | (Hnone & -> & isSound & s0 & Hcreate & -> & ->)].
  - destruct (foldl_handle_fields evs c) as (En & Ef & Ec & Ea).
    split; cbn [fst snd heap next created attached];
      rewrite ?foldl_handle_instancesMap, ?En, ?Ef, ?Ec, ?Ea; try done.
    + intros r Hr. rewrite fn_lookup_insert_ne; [by apply B3|].
      intros ->. destruct (proj1 (H2 _ _) Hfound) as [a Ha].
      pose proof (B2 _ _ _ Ha). pose proof (H6 _ _ Hfound). lia.
    + rewrite <- (foldl_handle_instancesMap evs c).
      by apply foldl_handle_registered.
    + intros a id r Ha. rewrite sound_attach. by eapply BC.
  - set (c1 := set_instancesMap c _).
    destruct (foldl_handle_fields evs c1) as (En & Ef & Ec & Ea).
    split; cbn [fst snd heap next created attached];
      rewrite ?foldl_handle_instancesMap, ?En, ?Ef, ?Ec, ?Ea; try done.
    + rewrite length_app. cbn [length]. lia.
    + intros a id r [Ha|Ha]%elem_of_app; [by eapply B2|].
      apply list_elem_of_singleton in Ha. injection Ha as _ _ ->. lia.
    + intros r Hr. rewrite !fn_lookup_insert_ne by lia. apply B3. lia.
    + rewrite <- (foldl_handle_instancesMap evs c1).
      apply foldl_handle_registered. unfold c1.
      cbn [instancesMap masks set_instancesMap].
      eapply Forall_impl; [exact B4|]. intros entry.
      by apply entryRegistered_insert.
    + intros a id r [Ha|Ha]%elem_of_app; [by eapply Hlater|].
      apply list_elem_of_singleton in Ha. injection Ha as -> -> ->.
      exists done, (fr, command), []. split; [done|]. split; [|done].
      intros z Hz Hid. assert (is_Some (instancesMap c !! instanceId command)) as [? ?].
      { apply H3. eauto. }
      congruence.
    + intros a id r Ha. rewrite sound_attach.
      apply elem_of_app in Ha as [Ha|Ha].
      * rewrite fn_lookup_insert_ne; [by eapply BC|].
        intros <-. assert (next σ < next σ); [|lia].
        apply (H6 id). apply H2. eauto.
      * apply list_elem_of_singleton in Ha. injection Ha as -> -> ->.
        rewrite fn_lookup_insert. cbn [sound]. eauto.
Qed.

Lemma walkFrames_invariants (h0 : nat → Obj Inst) (n : nat) (nm : string)
    (fs : list Frame) w :
  walkFrames (mkStore h0 n [] []) (mkContainer nm fs ∅ [] [] []) = Ok w →
  WalkInv (walkOrder fs) w ∧ BuildInv h0 n nm fs (walkOrder fs) w.
Proof.
  rewrite walkFrames_walkOrder. cbn [frames]. intros Hrun.
  apply (forEachM_invariant
           (λ done w, WalkInv done w ∧ BuildInv h0 n nm fs done w) step)
    with (done := []) (l := walkOrder fs) (s := (mkStore h0 n [] [],
                                                 mkContainer nm fs ∅ [] [] [], []));
    [|split; [apply WalkInv_init | apply BuildInv_init]|done].
  intros done w0 a w1 [HW HB] Hstep. split.
  - by eapply WalkInv_step.
  - by eapply BuildInv_step.
Qed.

Lemma newContainer_Ok σ0 (nm : string) (fs : list Frame) σ c :
  newContainer σ0 nm fs = Ok (σ, c) →
  ∃ c1 cands,
    walkFrames σ0 (mkContainer nm fs ∅ [] [] []) = Ok (σ, c1, cands)
    ∧ c = set_addChildren
            (set_children c1
               (reverse (filter (λ i, renderable (state (heap σ i)) = true)
                                cands))) [].
Proof.
  unfold newContainer. intros Hok.
  apply bind_Ok in Hok as ([[σ1 c1] ch] & Hget & Hok).
  injection Hok as <- <-.
  apply getChildren_Ok in Hget as (cands & Hwalk & ->). eauto.
Qed.

Lemma attached_registered (m : gmap Z nat) (att : list (nat * Z * Command))
    (done : list (Z * Command)) (r : nat) :
  Forall2 (λ call x, call.1.2 = x.1 ∧ call.2 = x.2
                     ∧ m !! instanceId x.2 = Some call.1.1) att done →
  r ∈ (λ call, call.1.1) <$> att → registered m r.
Proof.
  intros Hatt ([[r' fr] command] & -> & Hin)%list_elem_of_fmap.
  apply list_elem_of_lookup_1 in Hin as [i Hi].
  destruct (Forall2_lookup_l _ _ _ _ _ Hatt Hi) as (x & _ & _ & _ & Hm).
  by exists (instanceId x.2).
Qed.

(** X7: the container that the constructor returns is well formed: it has
    the name and the frames it was given and an empty [addChildren]; every
    instance of its map is an object made during the construction; every
    child, and every mask and target of an interval that is not
    [undefined], is an instance of its map. *)
Theorem newContainer_wellformed (h0 : nat → Obj Inst) (n : nat) (nm : string)
    (fs : list Frame) σ c :
  newContainer (mkStore h0 n [] []) nm fs = Ok (σ, c) →
  name c = nm ∧ frames c = fs ∧ addChildren c = []
  ∧ (∀ id r, instancesMap c !! id = Some r → n ≤ r < next σ)
  ∧ Forall (registered (instancesMap c)) (children c)
  ∧ Forall (entryRegistered (instancesMap c)) (masks c).
Proof.
  intros (c1 & cands & Hwalk & ->)%newContainer_Ok.
  apply walkFrames_invariants in Hwalk
    as [[_ H2 _ _ H5 H6 _ _ _ H10] [_ B2 _ B4 _ _ B6 B7 _ _]].
  cbn [fst snd] in *.
  cbn [name frames addChildren instancesMap children masks set_addChildren
       set_children].
  split; [done|]. split; [done|]. split; [done|]. split; [|split; [|done]].
  - intros id r Hr. split; [|by eapply H6].
    destruct (proj1 (H2 _ _) Hr) as [a Ha]. by eapply B2.
  - apply Forall_forall. intros r Hr.
    apply elem_of_reverse, list_elem_of_filter in Hr as [_ Hr].
    rewrite H10 in Hr. apply firstSeen_elem, list_elem_of_filter in Hr as [_ Hr].
    by eapply attached_registered.
Qed.

(** X8: after the construction, ids and instances are one to one: no
    instance is in the map under two ids; the map holds exactly the ids of
    the commands; and the heap grew by one object per id. *)
Theorem instancesMap_one_to_one (h0 : nat → Obj Inst) (n : nat) (nm : string)
    (fs : list Frame) σ c :
  newContainer (mkStore h0 n [] []) nm fs = Ok (σ, c) →
  (∀ id1 id2 r,
     instancesMap c !! id1 = Some r → instancesMap c !! id2 = Some r →
     id1 = id2)
  ∧ dom (instancesMap c)
    = list_to_set ((λ x, instanceId x.2) <$> walkOrder fs)
  ∧ next σ = n + size (instancesMap c).
Proof.
  intros (c1 & cands & Hwalk & ->)%newContainer_Ok.
  apply walkFrames_invariants in Hwalk
    as [[H1 H2 H3 _ _ _ _ _ H9 _] [B1 _ _ _ _ _ _ _ _ _]].
  cbn [fst snd] in *. cbn [instancesMap set_addChildren set_children].
  split; [|split].
  - intros id1 id2 r [a1 Ha1]%H2 [a2 Ha2]%H2.
    by eapply created_same_ref.
  - apply set_eq. intros id.
    rewrite elem_of_dom, H3, elem_of_list_to_set, list_elem_of_fmap. split.
    + intros (x & Hx & <-). by exists x.
    + intros (x & -> & Hx). by exists x.
  - rewrite B1. f_equal.
    rewrite <- size_dom, <- (length_fmap (λ x, x.1.2)). fold (ids (created σ)).
    rewrite <- (size_list_to_set (C := gset Z)) by done.
    f_equal. apply set_eq. intros id.
    rewrite elem_of_list_to_set, elem_of_dom. unfold ids.
    rewrite list_elem_of_fmap. split.
    + intros ([[a id'] r] & -> & Hin). exists r. apply H2. eauto.
    + intros [r (a & Ha)%H2]. by exists (a, id, r).
Qed.

(** X9: the construction writes only to the objects it makes: every object
    of the heap at an address below the first new one, or from the next free
    address on, is what it was. *)
Theorem newContainer_heap_frame (h0 : nat → Obj Inst) (n : nat) (nm : string)
    (fs : list Frame) σ c :
  newContainer (mkStore h0 n [] []) nm fs = Ok (σ, c) →
  n ≤ next σ
  ∧ next σ = n + length (created σ)
  ∧ (∀ r, r < n ∨ next σ ≤ r → heap σ r = h0 r).
Proof.
  intros (c1 & cands & Hwalk & ->)%newContainer_Ok.
  apply walkFrames_invariants in Hwalk as [_ [B1 _ B3 _ _ _ _ _ _ _]].
  cbn [fst snd] in *. split; [lia|]. done.
Qed.

(** X10: the first command of an id decides its instance: the library is
    asked with the asset of the first command that has the id, in walk
    order, whatever assets later commands of the id name; and the object is
    a [SoundInstance] exactly when the library said so for that asset. *)
Theorem createInstance_first_seen_wins (h0 : nat → Obj Inst) (n : nat)
    (nm : string) (fs : list Frame) σ c :
  newContainer (mkStore h0 n [] []) nm fs = Ok (σ, c) →
  ∀ a id r,
    (a, id, r) ∈ created σ →
    (∃ pre x post,
       walkOrder fs = pre ++ x :: post
       ∧ (∀ y, y ∈ pre → instanceId y.2 ≠ id)
       ∧ instanceId x.2 = id ∧ assetId x.2 = a)
    ∧ (∃ s0, createInstance a id = Some (sound (heap σ r), s0)).
Proof.
  intros (c1 & cands & Hwalk & ->)%newContainer_Ok a id r Ha.
  apply walkFrames_invariants in Hwalk as [_ [_ _ _ _ B5 BC _ _ _ _]].
  cbn [fst snd] in *. split; [by eapply B5 | by eapply BC].
Qed.

(** ** When the constructor throws *)

Lemma step_Throw (done : list (Z * Command)) w (x : Z * Command) :
  WalkInv done w →
  step w x = Throw
  ↔ (∀ y, y ∈ done → instanceId y.2 ≠ instanceId x.2)
    ∧ createInstance (assetId x.2) (instanceId x.2) = None.
Proof.
  destruct w as [[σ c] cands]. intros [_ _ H3 _ _ _ _ _ _ _]. cbn [fst snd] in *.
  unfold step, commandStep, lookupOrCreate.
  destruct (instancesMap c !! instanceId x.2) as [inst|] eqn:Hlk.
  - cbn [mbind result_bind]. destruct (attach σ c inst x.1 x.2) as [σ2 c2].
    split.
    + by destruct (negb _ && _).
    + intros [Hno _]. exfalso.
      destruct (proj1 (H3 (instanceId x.2))) as (y & Hy & Hid); [by eauto|].
      by eapply Hno.
  - destruct (createInstance (assetId x.2) (instanceId x.2)) as [[isSound s0]|].
    + cbn [defined mbind result_bind].
      destruct (attach _ _ _ x.1 x.2) as [σ2 c2]. split.
      * by destruct (negb _ && _).
      * by intros [_ ?].
    + cbn [defined mbind result_bind]. split; [|done]. intros _. split; [|done].
      intros y Hy Hid. assert (is_Some (instancesMap c !! instanceId x.2)) as [? ?].
      { apply H3. eauto. }
      congruence.
Qed.

Lemma forEachM_step_Throw (l : list (Z * Command)) :
  ∀ (done : list (Z * Command)) w,
    WalkInv done w →
    forEachM step l w = Throw
    ↔ ∃ pre x post,
        l = pre ++ x :: post
        ∧ (∀ y, y ∈ done ++ pre → instanceId y.2 ≠ instanceId x.2)
        ∧ createInstance (assetId x.2) (instanceId x.2) = None.
Proof.
  induction l as [|a l IH]; intros done w Hinv.
  - split; [done|]. intros (pre & x & post & Heq & _). by destruct pre.
  - cbn [forEachM]. destruct (step w a) as [w1|] eqn:Hstep.
    + cbn [mbind result_bind].
      rewrite (IH (done ++ [a]) w1) by (by eapply WalkInv_step). split.
      * intros (pre & x & post & -> & Hno & Hc).
        exists (a :: pre), x, post. split; [done|]. split; [|done].
        intros y Hy. apply Hno. rewrite <- (assoc_L (++)). done.
      * intros (pre & x & post & Heq & Hno & Hc). destruct pre as [|a' pre].
        -- injection Heq as <- <-. exfalso.
           assert (step w a = Throw) as Hthrow; [|congruence].
           apply (step_Throw done); [done|]. split; [|done].
           intros y Hy. apply Hno. rewrite app_nil_r. done.
        -- injection Heq as <- ->. exists pre, x, post. split; [done|].
           split; [|done]. intros y Hy. apply Hno.
           rewrite <- (assoc_L (++)) in Hy. done.
    + cbn [mbind result_bind]. split; [|done]. intros _.
      apply (step_Throw done) in Hstep as [Hno Hc]; [|done].
      exists [], a, l. split; [done|]. split; [|done].
      intros y Hy. apply Hno. by rewrite app_nil_r in Hy.
Qed.

(** X11: the constructor throws exactly when the library cannot resolve the
    first command of some id: a command whose id no earlier command has and
    for which [createInstance] throws. A command that cannot be resolved
    does no harm when its id is already known. *)
Theorem newContainer_throws_iff (h0 : nat → Obj Inst) (n : nat) (nm : string)
    (fs : list Frame) :
  newContainer (mkStore h0 n [] []) nm fs = Throw
  ↔ ∃ pre x post,
      walkOrder fs = pre ++ x :: post
      ∧ (∀ y, y ∈ pre → instanceId y.2 ≠ instanceId x.2)
      ∧ createInstance (assetId x.2) (instanceId x.2) = None.
Proof.
  rewrite <- (forEachM_step_Throw (walkOrder fs) []
                (mkStore h0 n [] [], mkContainer nm fs ∅ [] [] [], []))
    by apply WalkInv_init.
  unfold newContainer. rewrite getChildren_filter, walkFrames_walkOrder.
  cbn [frames].
  by destruct (forEachM step (walkOrder fs) _) as [[[σ1 c1] cands]|].
Qed.

(** ** The history of one instance *)

Lemma history_filter (m : gmap Z nat) (id : Z) (r : nat)
    (att : list (nat * Z * Command)) (done : list (Z * Command)) :
  (∀ id', m !! id' = Some r → id' = id) → m !! id = Some r →
  Forall2 (λ call x, call.1.2 = x.1 ∧ call.2 = x.2
                     ∧ m !! instanceId x.2 = Some call.1.1) att done →
  (λ call, (call.1.2, call.2)) <$> filter (λ call, call.1.1 = r) att
  = filter (λ x, instanceId x.2 = id) done.
Proof.
  intros Hinj Hid. induction 1 as [|call x att done (Hf & Hc & Hm) _ IH]; [done|].
  rewrite !filter_cons. destruct (decide (call.1.1 = r)) as [Hr|Hr].
  - rewrite decide_True by (apply Hinj; congruence).
    rewrite fmap_cons, IH. f_equal.
    destruct call as [[? ?] ?], x as [? ?]. cbn in *. congruence.
  - rewrite decide_False; [done|]. intros Hx. congruence.
Qed.

(** X12: an instance is given the commands of its id and no others, in walk
    order. The object registered under an id has, after the construction,
    the state that [createInstance] answered for the id followed by
    [addToFrame] with each command of that id, with the frame it stands in,
    in the order of the frames, and with no other command; and the calls of
    [addToFrame] on that object are these commands. *)
Theorem instance_history (h0 : nat → Obj Inst) (n : nat) (nm : string)
    (fs : list Frame) σ c (id : Z) (r : nat) :
  newContainer (mkStore h0 n [] []) nm fs = Ok (σ, c) →
  instancesMap c !! id = Some r →
  (∃ a isSound s0,
     (a, id, r) ∈ created σ
     ∧ createInstance a id = Some (isSound, s0)
     ∧ sound (heap σ r) = isSound
     ∧ state (heap σ r)
       = foldl (λ s x, (addToFrame s x.1 x.2).1) s0
               (filter (λ x, instanceId x.2 = id) (walkOrder fs)))
  ∧ (λ call, (call.1.2, call.2)) <$> filter (λ call, call.1.1 = r) (attached σ)
    = filter (λ x, instanceId x.2 = id) (walkOrder fs).
Proof.
  intros (c1 & cands & Hwalk & ->)%newContainer_Ok Hid.
  pose proof (walkFrames_state h0 n nm fs _ Hwalk) as HS.
  apply walkFrames_invariants in Hwalk as [[_ H2 _ _ H5 _ _ _ H9 _] _].
  cbn [fst snd] in *. cbn [instancesMap set_addChildren set_children] in Hid.
  split.
  - destruct (proj1 (H2 _ _) Hid) as [a Ha].
    destruct (HS a id r Ha) as (isSound & s0 & Hc & Hb & Hs).
    by exists a, isSound, s0.
  - apply (history_filter (instancesMap c1)); [|done|done].
    intros id' [a1 Ha1]%H2. apply H2 in Hid as [a2 Ha2].
    by eapply created_same_ref.
Qed.

End Build.

(** ** The sample timeline, constructed *)

Lemma sampleWorld_built :
  newContainer (mkStore sampleHeap 0 [] []) "tl" sampleFrames
  = Ok (sampleWorld.1, sampleWorld.2).
Proof.
  rewrite <- surjective_pairing. unfold sampleWorld.
  change (mkStore sampleHeap 0 [] []) with sampleStore.
  destruct (newContainer sampleStore "tl" sampleFrames) as [w|] eqn:Hnew;
    [done|].
  vm_compute in Hnew. discriminate Hnew.
Qed.

Lemma newContainer_wellformed_witness :
  name sampleWorld.2 = "tl"
  ∧ children sampleWorld.2 = [2; 0]
  ∧ Forall (registered (instancesMap sampleWorld.2)) (children sampleWorld.2)
  ∧ Forall (entryRegistered (instancesMap sampleWorld.2)) (masks sampleWorld.2).
Proof.
  destruct (newContainer_wellformed sampleHeap 0 "tl" sampleFrames
              sampleWorld.1 sampleWorld.2 sampleWorld_built)
    as (Hn & _ & _ & _ & Hch & Hms).
  split; [exact Hn|]. split; [by vm_compute|]. split; [exact Hch | exact Hms].
Defined.

Lemma instancesMap_one_to_one_witness :
  size (instancesMap sampleWorld.2) = 4 ∧ next sampleWorld.1 = 4.
Proof.
  destruct (instancesMap_one_to_one sampleHeap 0 "tl" sampleFrames
              sampleWorld.1 sampleWorld.2 sampleWorld_built) as (_ & _ & Hnext).
  split; [by vm_compute|]. rewrite Hnext. by vm_compute.
Defined.

Lemma newContainer_heap_frame_witness :
  next sampleWorld.1 = 4 ∧ heap sampleWorld.1 7 = sampleHeap 7.
Proof.
  destruct (newContainer_heap_frame sampleHeap 0 "tl" sampleFrames
              sampleWorld.1 sampleWorld.2 sampleWorld_built) as (_ & Hnext & Hframe).
  split; [rewrite Hnext; by vm_compute|].
  apply Hframe. right. rewrite Hnext. vm_compute. lia.
Defined.

Lemma createInstance_first_seen_wins_witness :
  ∃ σ c, newContainer (mkStore sampleHeap 0 [] []) "tl" lateBrokenFrames
         = Ok (σ, c)
         ∧ created σ = [(1%Z, 1%Z, 0)]
         ∧ ∃ s0, createInstance 1 1 = Some (sound (heap σ 0), s0).
Proof.
  destruct (newContainer (mkStore sampleHeap 0 [] []) "tl" lateBrokenFrames)
    as [[σ c]|] eqn:Hnew; [|by vm_compute in Hnew].
  exists σ, c. split; [done|].
  assert (Hcr : created σ = [(1%Z, 1%Z, 0)]).
  { vm_compute in Hnew. by injection Hnew as <- _. }
  split; [exact Hcr|].
  destruct (createInstance_first_seen_wins sampleHeap 0 "tl" lateBrokenFrames
              σ c Hnew 1%Z 1%Z 0) as [_ Hclass]; [|exact Hclass].
  rewrite Hcr. by left.
Defined.

Lemma newContainer_throws_iff_witness :
  newContainer (mkStore sampleHeap 0 [] []) "tl" brokenFrames = Throw.
Proof.
  apply newContainer_throws_iff.
  exists [(0%Z, mkCommand 1 1 None); (1%Z, mkCommand 1 0 None)],
         (2%Z, mkCommand 5 0 None), [].
  split; [done|]. split; [|done].
  intros y Hy.
  repeat (apply elem_of_cons in Hy as [->|Hy]; [done|]).
  by apply elem_of_nil in Hy.
Defined.

Lemma instance_history_witness :
  ∃ σ c,
    newContainer (mkStore sampleHeap 0 [] []) "tl" sampleFrames = Ok (σ, c)
    ∧ instancesMap c !! 2%Z = Some 0
    ∧ s_history (state (heap σ 0))
      = [(0%Z, mkCommand 2 1 None); (2%Z, mkCommand 2 1 None)]
    ∧ (λ call, (call.1.2, call.2))
        <$> filter (λ call, call.1.1 = 0) (attached σ)
      = [(0%Z, mkCommand 2 1 None); (2%Z, mkCommand 2 1 None)].
Proof.
  destruct (newContainer (mkStore sampleHeap 0 [] []) "tl" sampleFrames)
    as [[σ c]|] eqn:Hnew; [|by vm_compute in Hnew].
  exists σ, c. split; [reflexivity|].
  assert (Hid : instancesMap c !! 2%Z = Some 0
                ∧ created σ = [(1%Z, 2%Z, 0); (3%Z, 1%Z, 1);
                               (1%Z, 4%Z, 2); (2%Z, 3%Z, 3)]).
  { pose proof Hnew as Hv. vm_compute in Hv. injection Hv as <- <-.
    split; by vm_compute. }
  destruct Hid as [Hid Hcr]. split; [exact Hid|].
  destruct (instance_history sampleHeap 0 "tl" sampleFrames σ c 2 0 Hnew Hid)
    as [(a & isSound & s0 & Ha & Hc & _ & Hs) Hcalls].
  split.
  - rewrite Hs. rewrite Hcr in Ha.
    assert (a = 1%Z) as ->.
    { clear -Ha.
      repeat (apply elem_of_cons in Ha as [Ha|Ha]; [by inversion Ha|]).
      by apply elem_of_nil in Ha. }
    vm_compute in Hc. injection Hc as _ <-. by vm_compute.
  - rewrite Hcalls. by vm_compute.
Defined.

End ContainerMore.
